(** * mes-user-portal: the permission resolver and the org-unit routes

    A shallow embedding of [helpers/permissions.js] ([has], [hasOverUser],
    [hasOverUnit], [hasOverOffice], [normalizeOfficer], [mapCollection]) and
    of the routes of [controllers/org-units.js] (search, create, update,
    delete), followed by the properties of the specification that concern
    them.

    Promises are modelled by their outcome: a resolved promise is [Ok v], a
    rejected one is [Fail e]; [.then] is the bind of the [result] monad and
    [.catch] a match on [Fail].  The database is an explicit value of type
    [DB] threaded through the routes. *)

From Stdlib Require Import ZArith Ascii String List Bool Lia.
From stdpp Require Import base option list strings pretty gmap.

Set Warnings "-register-all".

Local Open Scope Z_scope.
Local Open Scope string_scope.

(** ** JavaScript values used by the code *)

(** A JavaScript number that is either an integer or [NaN] ([None]). *)
Definition Num := option Z.
Definition NaN : Num := None.

(** [NaN !== x]: [NaN] compares unequal to every value, itself included, so
    the strict inequality holds whatever [x] is. *)
Definition NaN_strictNotEqual (x : Num) : bool := true.

(** [! a] for an array (or any object) [a]: objects are truthy, the empty
    array too, so the negation is [false]. *)
Definition not_array {A} (a : list A) : bool := false.

(** Truthiness of a string: every string but the empty one. *)
Definition truthy_string (s : string) : bool :=
  match s with EmptyString => false | _ => true end.

(** Truthiness of a field that may be absent ([undefined]). *)
Definition truthy (v : option string) : bool :=
  match v with Some s => truthy_string s | None => false end.

(** Truthiness of an integer: every integer but zero. *)
Definition truthy_int (n : Z) : bool := negb (n =? 0)%Z.

(** [a.indexOf(x)] with strict equality on the elements, [-1] when absent. *)
Fixpoint indexOf `{EqDecision A} (a : list A) (x : A) : Z :=
  match a with
  | [] => -1
  | y :: a' =>
      if decide (y = x) then 0
      else let i := indexOf a' x in if (i =? -1)%Z then -1 else i + 1
  end.

(** [-1 !== a.indexOf(x)]. *)
Definition includes `{EqDecision A} (a : list A) (x : A) : bool :=
  negb (indexOf a x =? -1)%Z.

Definition toLowerCase_ascii (c : ascii) : ascii :=
  let n := nat_of_ascii c in
  if (Nat.leb 65 n && Nat.leb n 90)%bool then ascii_of_nat (n + 32) else c.

(** Lower case on ASCII text: the letters [A] to [Z] are lowered, every
    other character is kept. *)
Fixpoint lowerCaseAscii (s : string) : string :=
  match s with
  | EmptyString => EmptyString
  | String c s' => String (toLowerCase_ascii c) (lowerCaseAscii s')
  end.

(** A text of ASCII characters only. *)
Fixpoint isAsciiText (s : string) : bool :=
  match s with
  | EmptyString => true
  | String c s' => Nat.ltb (nat_of_ascii c) 128 && isAsciiText s'
  end.

Definition isWhiteSpace (c : ascii) : bool :=
  let n := nat_of_ascii c in
  (Nat.leb 9 n && Nat.leb n 13)%bool || Nat.eqb n 32.

Fixpoint skipWhiteSpace (s : string) : string :=
  match s with
  | String c s' => if isWhiteSpace c then skipWhiteSpace s' else s
  | EmptyString => s
  end.

Definition digitValue (c : ascii) : option Z :=
  let n := nat_of_ascii c in
  if (Nat.leb 48 n && Nat.leb n 57)%bool then Some (Z.of_nat n - 48)
  else if (Nat.leb 97 n && Nat.leb n 122)%bool then Some (Z.of_nat n - 87)
  else if (Nat.leb 65 n && Nat.leb n 90)%bool then Some (Z.of_nat n - 55)
  else None.

(** The longest prefix of digits below [radix]; [acc] is [None] until a
    digit has been read. *)
Fixpoint parseDigits (radix : Z) (s : string) (acc : option Z) : option Z :=
  match s with
  | EmptyString => acc
  | String c s' =>
      match digitValue c with
      | Some d =>
          if (d <? radix)%Z
          then parseDigits radix s' (Some (radix * default 0 acc + d))
          else acc
      | None => acc
      end
  end.

(** [Number.parseInt(s)] without a radix on ASCII text: leading white
    space, a sign, an optional [0x] prefix, then digits; [NaN] when no digit
    follows.  The value is the integer the digits denote. *)
Definition parseIntAscii (s : string) : Num :=
  let s := skipWhiteSpace s in
  let '(sign, s) :=
    match s with
    | String "-" r => (-1, r)
    | String "+" r => (1, r)
    | _ => (1, s)
    end in
  let '(radix, s) :=
    match s with
    | String "0" (String "x" r) => (16, r)
    | String "0" (String "X" r) => (16, r)
    | _ => (10, s)
    end in
  match parseDigits radix s None with
  | Some n => Some (sign * n)
  | None => NaN
  end.

(** The numbers a double holds exactly: [NaN], and the integers below 2^53
    in absolute value. *)
Definition isExact (n : Num) : bool :=
  match n with
  | Some k => (Z.abs k <? 2 ^ 53)%Z
  | None => true
  end.

(** ** The built-in functions of the language

    [String.prototype.toLowerCase] and [Number.parseInt] are not code of
    the repository.  Outside ASCII the first follows the case mappings of
    Unicode, and from 2^53 on the second rounds to a double; neither is
    spelled out here.  The two are taken as an interface, with what the
    language fixes for them on ASCII text, and every property below holds
    for any implementation of it.  Where [Number.parseInt] gives no integer
    ([NaN], or [Infinity] for a text of some hundreds of digits) the
    interface gives [None]: the routes compare the number with 1 and with
    the ids of rows only, and neither value equals any of them. *)
Class Builtins : Type := {
  toLowerCase : string -> string;
  parseInt : string -> Num;
  toLowerCase_ascii_text (s : string) :
    isAsciiText s = true -> toLowerCase s = lowerCaseAscii s;
  toLowerCase_empty (s : string) :
    toLowerCase s = EmptyString <-> s = EmptyString;
  parseInt_ascii_text (s : string) :
    isAsciiText s = true -> isExact (parseIntAscii s) = true ->
    parseInt s = parseIntAscii s
}.

(** The built-in functions on ASCII text, which the sample data are. *)
Definition asciiBuiltins : Builtins.
Proof.
  refine {| toLowerCase := lowerCaseAscii; parseInt := parseIntAscii |}.
  - reflexivity.
  - intros s. destruct s; simpl; split; congruence.
  - reflexivity.
Defined.

(** ** Errors and promise outcomes *)

(** The errors the code raises: [new Error(msg)], [new UserError(msg,
    status, cause)], the [ReferenceError] of an undeclared identifier, the
    [TypeError] of a call of something that is no function, and the
    rejections of the persistence layer ([require: true] on an empty
    result, an update that changes no row, a duplicate key on insert) and of
    the validation helper. *)
Inductive Err : Type :=
| PlainError (msg : string)
| UserError (msg : string) (status : Z) (cause : option Err)
| ReferenceError (ident : string)
| TypeError (msg : string)
| NotFoundError
| EmptyError
| NoRowsUpdatedError
| DuplicateKey
| ValidationErrors (fields : list string).

Definition instanceof_UserError (e : Err) : bool :=
  match e with UserError _ _ _ => true | _ => false end.

Definition status_of (e : Err) : option Z :=
  match e with UserError _ s _ => Some s | _ => None end.

Inductive result (A : Type) : Type :=
| Ok (a : A)
| Fail (e : Err).
Arguments Ok {A} a.
Arguments Fail {A} e.

Definition bind {A B} (m : result A) (k : A -> result B) : result B :=
  match m with Ok a => k a | Fail e => Fail e end.

(** [p.catch(h)] where the handler always throws. *)
Definition catch_throw {A} (m : result A) (h : Err -> Err) : result A :=
  match m with Ok a => Ok a | Fail e => Fail (h e) end.

Declare Scope promise_scope.
Delimit Scope promise_scope with promise.
Notation "x <- m ;; k" := (bind m (fun x => k))
  (at level 100, m at next level, right associativity) : promise_scope.
Notation "m ;;; k" := (bind m (fun _ => k))
  (at level 100, right associativity) : promise_scope.
Local Open Scope promise_scope.

(** ** Data model *)

Record Office : Type := mkOffice {
  o_id : Z;
  o_userID : Z;
  o_parentOrgID : option Z;
  o_parentOfficeID : option Z;
  o_parentID : option Z;
  o_roles : option (list string)
}.

Record OrgUnit : Type := mkOrgUnit {
  u_id : Z;
  u_code : option string;
  u_name : option string;
  u_type : string;
  u_parentID : option Z;
  u_parentPath : string;
  u_lft : option Z;
  u_rgt : option Z;
  u_venueType : option string;
  u_location : option string;
  u_defDoc : option string;
  u_website : option string
}.

Record User : Type := mkUser {
  usr_id : Z;
  usr_orgUnit : option Z
}.

(** The three tables. *)
Record DB : Type := mkDB {
  org_units : list OrgUnit;
  offices : list Office;
  users : list User
}.

Global Instance Office_eq_dec : EqDecision Office.
Proof. solve_decision. Defined.
Global Instance OrgUnit_eq_dec : EqDecision OrgUnit.
Proof. solve_decision. Defined.
Global Instance User_eq_dec : EqDecision User.
Proof. solve_decision. Defined.

(** [new OrgUnit({ id: n }).fetch({ require: true })]. *)
Definition fetchUnit (db : DB) (p : OrgUnit -> bool) : result OrgUnit :=
  match List.find p (org_units db) with
  | Some u => Ok u
  | None => Fail NotFoundError
  end.

Definition whereId (n : Num) (u : OrgUnit) : bool :=
  bool_decide (Some (u_id u) = n).

Definition whereCode (c : string) (u : OrgUnit) : bool :=
  bool_decide (u_code u = Some c).

(** [new Offices({ id: n }).fetch({ require: true })]. *)
Definition fetchOffice (db : DB) (n : Z) : result Office :=
  match List.find (fun o => (o_id o =? n)%Z) (offices db) with
  | Some o => Ok o
  | None => Fail NotFoundError
  end.

(** [query.fetchAll({ require: true })]: rejects on an empty result. *)
Definition fetchAll_require {A} (rows : list A) : result (list A) :=
  match rows with
  | [] => Fail EmptyError
  | _ => Ok rows
  end.

(** ** The org-unit model ([models/org_units.js])

    The Bookshelf model of org units is not part of the sources at hand; the
    code calls four of its methods.  They are taken as an interface, and
    every property below holds for any implementation of it. *)
Class OrgUnitModel : Type := {
  (** [unit.getParents()]: the ancestors of a unit, as models. *)
  getParents : DB -> OrgUnit -> list OrgUnit;
  (** [unit.getChildren()]: the child units. *)
  getChildren : DB -> OrgUnit -> list OrgUnit;
  (** [unit.parents()]: the ids of the ancestors; the delete route pops the
      last one. *)
  parents : OrgUnit -> list Z
}.

(** Modelled from the spec: [OrgUnit.getTypes()], the static list of unit
    types of [models/org_units.js] in rank order
    (Nation < Region < Domain < Venue). *)
Definition getTypes : list string := ["Nation"; "Region"; "Domain"; "Venue"].

(** ** The permission resolver ([helpers/permissions.js]) *)

(** The [officer] parameter: a user id, a user object, or an already
    resolved collection of offices (anything with a [filter] function). *)
Inductive OfficerRef : Type :=
| OfficerId (n : Z)
| OfficerUser (u : User)
| OfficerOffices (held : list Office).

(** The [unit] parameter of [hasOverUnit]: absent ([null], [undefined]), an
    integer id, or a fetched model. *)
Inductive UnitRef : Type :=
| UnitAbsent
| UnitId (n : Z)
| UnitModel (u : OrgUnit).

(** The [office] parameter of [hasOverOffice]: an integer id or a model. *)
Inductive OfficeRef : Type :=
| OfficeId (n : Z)
| OfficeModel (o : Office).

(** A user model together with its loaded [orgUnit] relation. *)
Record UserModel : Type := mkUserModel {
  um_user : User;
  um_related_orgUnit : OrgUnit
}.

(** [new Offices().where( 'userID', n )]. *)
Definition whereUserID (db : DB) (n : Z) : list Office :=
  List.filter (fun o => (o_userID o =? n)%Z) (offices db).

Definition normalizeOfficer (db : DB) (officer : OfficerRef)
  : result (list Office) :=
  match officer with
  | OfficerOffices held => Ok held
  | OfficerId n => fetchAll_require (whereUserID db n)
  | OfficerUser u => fetchAll_require (whereUserID db (usr_id u))
  end.

(** [office.has('roles') && -1 !== office.get('roles').indexOf(permission)]. *)
Definition grants (permission : string) (office : Office) : bool :=
  match o_roles office with
  | Some roles => includes roles permission
  | None => false
  end.

Definition has (db : DB) (permission : string) (officer : OfficerRef)
  : result (list Office) :=
  held <- catch_throw (normalizeOfficer db officer)
            (fun _ => PlainError "User has no offices") ;;
  let offices := List.filter (grants permission) held in
  if not_array offices
  then Fail (PlainError "No offices with permission")
  else Ok offices.

Definition mapCollection {A B} (coll : list A) (field : A -> B) : list B :=
  List.map field coll.

(** The loop over [parents.toArray()] shared by [hasOverUser] and
    [hasOverUnit], with the [throw] that follows it. *)
Fixpoint chainLoop (parents : list OrgUnit) (officeOrgs : list (option Z))
  : result bool :=
  match parents with
  | [] => Fail (PlainError "Officer not found in chain")
  | p :: rest =>
      if includes officeOrgs (Some (u_id p)) then Ok true
      else chainLoop rest officeOrgs
  end.

Section Permissions.
Context `{M : OrgUnitModel}.

Definition hasOverUser (db : DB) (user : UserModel) (permission : string)
    (officer : OfficerRef) : result bool :=
  offices <- has db permission officer ;;
  let officeOrgs := mapCollection offices o_parentOrgID in
  match usr_orgUnit (um_user user) with
  | Some orgUnit =>
      if includes officeOrgs (Some orgUnit) then Ok true
      else chainLoop (getParents db (um_related_orgUnit user)) officeOrgs
  | None =>
      if includes officeOrgs (Some 1) then Ok true
      else Fail (PlainError "Not national officer")
  end.

(** [if ( ! unit ) { unit = 1; }]: an absent unit, and the falsy id [0],
    default to National. *)
Definition orNational (unit : UnitRef) : Z + OrgUnit :=
  match unit with
  | UnitAbsent => inl 1
  | UnitId n => if truthy_int n then inl n else inl 1
  | UnitModel u => inr u
  end.

(** The [.tap] of [hasOverUnit]: default to National, fetch an id. *)
Definition resolveUnit (db : DB) (unit : UnitRef) : result OrgUnit :=
  match orNational unit with
  | inl n =>
      catch_throw (fetchUnit db (whereId (Some n)))
        (fun err => UserError "Org unit not found." 404 (Some err))
  | inr u => Ok u
  end.

Definition hasOverUnit (db : DB) (unit : UnitRef) (permission : string)
    (officer : OfficerRef) : result bool :=
  offices <- has db permission officer ;;
  unit <- resolveUnit db unit ;;
  let officeOrgs := mapCollection offices o_parentOrgID in
  if includes officeOrgs (Some 1) then Ok true
  else if includes officeOrgs (Some (u_id unit)) then Ok true
  else chainLoop (getParents db unit) officeOrgs.

(** The [officeQuery] of [hasOverOffice]: an id is fetched, a model is
    taken as it is. *)
Definition resolveOffice (db : DB) (office : OfficeRef) : result Office :=
  match office with
  | OfficeId n =>
      catch_throw (fetchOffice db n)
        (fun err => UserError "Office not found." 404 (Some err))
  | OfficeModel o => Ok o
  end.

(** [hasOverOffice] calls itself on the parent office; [fuel] bounds the
    depth of the calls and [None] means the bound was reached before any
    promise settled. *)
Fixpoint hasOverOffice (fuel : nat) (db : DB) (office : OfficeRef)
    (permission : string) (officer : OfficerRef) : option (result bool) :=
  match fuel with
  | O => None
  | S fuel' =>
      match resolveOffice db office with
      | Fail e => Some (Fail e)
      | Ok office =>
          match o_parentOfficeID office with
          | None => Some (Fail (PlainError "Office not in chain"))
          | Some parentOfficeID =>
              match has db permission officer with
              | Fail e => Some (Fail e)
              | Ok offices =>
                  let officeParents := mapCollection offices o_parentID in
                  if includes officeParents (Some (o_id office))
                  then Some (Ok true)
                  else hasOverOffice fuel' db (OfficeId parentOfficeID)
                         permission (OfficerOffices offices)
              end
          end
      end
  end.

End Permissions.

(** ** Request validation ([helpers/validation.js]) *)

(** The body of a create or update request; every field may be absent. *)
Record Body : Type := mkBody {
  b_id : option Z;
  b_name : option string;
  b_code : option string;
  b_venueType : option string;
  b_location : option string;
  b_defDoc : option string;
  b_website : option string;
  b_type : option string;
  b_parentID : option Z;
  b_parentPath : option string
}.

Global Instance Body_eq_dec : EqDecision Body.
Proof. solve_decision. Defined.

Definition emptyBody : Body :=
  mkBody None None None None None None None None None None.

(** [_.isEmpty( data )]. *)
Definition isEmpty (data : Body) : bool := bool_decide (data = emptyBody).

(** The validators the two constraint objects name. *)
Inductive Rule : Type :=
| Presence
| LengthMin1
| IsString
| Url
| Inclusion (allowed : list string)
| Numericality.

Record Constraints : Type := mkConstraints {
  c_id : list Rule;
  c_name : list Rule;
  c_code : list Rule;
  c_venueType : list Rule;
  c_location : list Rule;
  c_defDoc : list Rule;
  c_website : list Rule;
  c_type : list Rule;
  c_parentPath : list Rule
}.

(** What the validation helper leaves open: which strings are well-formed
    URLs, and how a list of failing fields is rendered in a message. *)
Class ValidationHelper : Type := {
  isUrl : string -> bool;
  format : list string -> string
}.

Section Validation.
Context `{V : ValidationHelper}.

(** Modelled from the spec: the validators of [helpers/validation.js]
    (a wrapper of validate.js that is not among the sources).  A required
    field must be supplied; the other validators accept an absent field and
    check a supplied one: at least one character, a well-formed URL,
    membership in the allowed values.  Every field modelled as a string is a
    string. *)
Definition checkRule (v : option string) (r : Rule) : bool :=
  match r, v with
  | Presence, None => false
  | Presence, Some _ => true
  | LengthMin1, Some s => Nat.leb 1 (String.length s)
  | Url, Some s => isUrl s
  | Inclusion allowed, Some s => includes allowed s
  | _, _ => true
  end.

Definition checkField (name : string) (v : option string) (rules : list Rule)
  : list string :=
  if forallb (checkRule v) rules then [] else [name].

(** Modelled from the spec: [validate.async( data, constraints )] resolves
    with the attributes when every constraint holds and rejects with the
    failing fields otherwise.  The [id] of a body is an integer by type, so
    its numericality constraint always holds. *)
Definition validate_async (data : Body) (c : Constraints) : result Body :=
  let errs :=
    (checkField "name" (b_name data) (c_name c) ++
    checkField "code" (b_code data) (c_code c) ++
    checkField "venueType" (b_venueType data) (c_venueType c) ++
    checkField "location" (b_location data) (c_location c) ++
    checkField "defDoc" (b_defDoc data) (c_defDoc c) ++
    checkField "website" (b_website data) (c_website c) ++
    checkField "type" (b_type data) (c_type c) ++
    checkField "parentPath" (b_parentPath data) (c_parentPath c))%list in
  match errs with
  | [] => Ok data
  | _ => Fail (ValidationErrors errs)
  end.

Definition invalidData (errs : Err) : Err :=
  match errs with
  | ValidationErrors fields =>
      UserError ("Invalid data provided: " +:+ format fields) 400 None
  | _ => UserError ("Invalid data provided: " +:+ format []) 400 None
  end.

End Validation.

(** ** Persistence: writes and transactions *)

Definition withUnits (t : DB) (rows : list OrgUnit) : DB :=
  mkDB rows (offices t) (users t).
Definition withOffices (t : DB) (rows : list Office) : DB :=
  mkDB (org_units t) rows (users t).
Definition withUsers (t : DB) (rows : list User) : DB :=
  mkDB (org_units t) (offices t) rows.

(** [Bookshelf.transaction( t => body )]: the writes of [body] are kept when
    its promise resolves and rolled back when it rejects. *)
Definition transaction {A} (db : DB) (body : DB -> result (DB * A))
  : DB * result A :=
  match body db with
  | Ok (db', a) => (db', Ok a)
  | Fail e => (db, Fail e)
  end.

(** The id an insert without an id is given: above every id in the table. *)
Definition freshId (rows : list OrgUnit) : Z :=
  1 + fold_right Z.max 0 (List.map u_id rows).

(** [new OrgUnit().save( attributes, { method: 'insert' } )]. *)
Definition insertUnit (t : DB) (attributes : Body) : result (DB * OrgUnit) :=
  let id := default (freshId (org_units t)) (b_id attributes) in
  if existsb (fun u => (u_id u =? id)%Z) (org_units t) then Fail DuplicateKey
  else
    let unit :=
      {| u_id := id;
         u_code := b_code attributes;
         u_name := b_name attributes;
         u_type := default EmptyString (b_type attributes);
         u_parentID := b_parentID attributes;
         u_parentPath := default "undefined" (b_parentPath attributes);
         u_lft := None;
         u_rgt := None;
         u_venueType := b_venueType attributes;
         u_location := b_location attributes;
         u_defDoc := b_defDoc attributes;
         u_website := b_website attributes |} in
    Ok (withUnits t (org_units t ++ [unit])%list, unit).

(** [unit.set( 'parentPath', path )]. *)
Definition set_parentPath (unit : OrgUnit) (path : string) : OrgUnit :=
  {| u_id := u_id unit; u_code := u_code unit; u_name := u_name unit;
     u_type := u_type unit; u_parentID := u_parentID unit;
     u_parentPath := path;
     u_lft := u_lft unit; u_rgt := u_rgt unit;
     u_venueType := u_venueType unit; u_location := u_location unit;
     u_defDoc := u_defDoc unit; u_website := u_website unit |}.

(** [unit.set( attributes )] for the attributes a body supplies; the primary
    key stays as fetched. *)
Definition set_attributes (unit : OrgUnit) (attributes : Body) : OrgUnit :=
  let upd {A} (new : option A) (old : option A) : option A :=
    match new with Some _ => new | None => old end in
  {| u_id := u_id unit;
     u_code := upd (b_code attributes) (u_code unit);
     u_name := upd (b_name attributes) (u_name unit);
     u_type := default (u_type unit) (b_type attributes);
     u_parentID := upd (b_parentID attributes) (u_parentID unit);
     u_parentPath := default (u_parentPath unit) (b_parentPath attributes);
     u_lft := u_lft unit; u_rgt := u_rgt unit;
     u_venueType := upd (b_venueType attributes) (u_venueType unit);
     u_location := upd (b_location attributes) (u_location unit);
     u_defDoc := upd (b_defDoc attributes) (u_defDoc unit);
     u_website := upd (b_website attributes) (u_website unit) |}.

(** [unit.save()]: the row with the unit's id is replaced. *)
Definition saveUnit (t : DB) (unit : OrgUnit) : DB :=
  withUnits t
    (List.map (fun u => if (u_id u =? u_id unit)%Z then unit else u)
       (org_units t)).

(** [unit.destroy()]. *)
Definition destroyUnit (t : DB) (unit : OrgUnit) : DB :=
  withUnits t
    (List.filter (fun u => negb (u_id u =? u_id unit)%Z) (org_units t)).

(** [new Offices().where({ parentOrgID: id }).destroy()]. *)
Definition destroyOffices (t : DB) (id : Z) : DB :=
  withOffices t
    (List.filter (fun o => negb (bool_decide (o_parentOrgID o = Some id)))
       (offices t)).

(** [new Users().where({ orgUnit: id }).save({ orgUnit: parent },
    { patch: true })]: the users of the unit are moved to the parent.  The
    call does not pass [require: false], so an update that finds no row to
    change rejects. *)
Definition patchUsers (t : DB) (id parent : Z) : result DB :=
  if existsb (fun u => bool_decide (usr_orgUnit u = Some id)) (users t)
  then
    Ok (withUsers t
          (List.map
             (fun u =>
                if bool_decide (usr_orgUnit u = Some id)
                then mkUser (usr_id u) (Some parent) else u)
             (users t)))
  else Fail NoRowsUpdatedError.

(** ** The org-unit routes ([controllers/org-units.js]) *)

(** The last [.catch] of every mutating route: a [UserError] goes to [next]
    as it is, anything else as a 403. *)
Definition finalCatch {A} (r : result A) : result A :=
  catch_throw r
    (fun err =>
       if instanceof_UserError err then err
       else UserError "Authentication failed" 403 (Some err)).

Definition createConstraints : Constraints :=
  {| c_id := [Numericality];
     c_name := [LengthMin1; Presence];
     c_code := [LengthMin1; Presence];
     c_venueType := [LengthMin1];
     c_location := [IsString];
     c_defDoc := [IsString];
     c_website := [Url];
     c_type := [Inclusion ["Venue"; "Domain"; "Region"]; Presence];
     c_parentPath := [LengthMin1; Presence] |}.

Definition updateConstraints : Constraints :=
  {| c_id := [];
     c_name := [LengthMin1];
     c_code := [LengthMin1];
     c_venueType := [IsString];
     c_location := [IsString];
     c_defDoc := [IsString];
     c_website := [Url];
     c_type := [Inclusion ["Venue"; "Domain"; "Region"]];
     c_parentPath := [] |}.

(** [data.parentPath = path + '.']. *)
Definition with_parentPath (data : Body) (path : string) : Body :=
  {| b_id := b_id data; b_name := b_name data; b_code := b_code data;
     b_venueType := b_venueType data; b_location := b_location data;
     b_defDoc := b_defDoc data; b_website := b_website data;
     b_type := b_type data; b_parentID := b_parentID data;
     b_parentPath := Some path |}.

(** The body of the transaction of the create route: insert the row to
    obtain its id, then write the path that ends in that id. *)
Definition createTransaction (attributes : Body) (t : DB)
  : result (DB * OrgUnit) :=
  inserted <- insertUnit t attributes ;;
  let '(t1, unit) := inserted in
  let unit :=
    set_parentPath unit
      (default "undefined" (b_parentPath attributes) +:+ pretty (u_id unit)) in
  Ok (saveUnit t1 unit, unit).

Definition creatingError (err : Err) : Err :=
  UserError "There was an error creating the org unit" 500 (Some err).

(** The double-quote character, as a string. *)
Definition dquote : string := String (ascii_of_nat 34) EmptyString.

(** A condition added to the search query. *)
Inductive Where : Type :=
| WhereLike (column pattern : string)
| WhereEq (column value : string).

(** A value of [req.query]: a string or, for a parameter that is repeated
    or written with brackets, an array or an object. *)
Inductive QueryValue : Type :=
| QString (s : string)
| QArray (items : list string)
| QObject (fields : list (string * string)).

Global Instance QueryValue_eq_dec : EqDecision QueryValue.
Proof. solve_decision. Defined.

Definition stringValue (v : QueryValue) : option string :=
  match v with QString s => Some s | _ => None end.

(** The condition a search parameter contributes: one when it is supplied
    with a non-empty value, none otherwise. *)
Definition whereIf (value : option string) (w : string -> Where) : list Where :=
  match value with
  | Some v => if truthy_string v then [w v] else []
  | None => []
  end.

Section Routes.
Context `{M : OrgUnitModel} `{V : ValidationHelper} `{J : Builtins}.

(** [router.post( '/' )]: the database after the request and what the
    handler answers ([res.json( unit )]) or hands to [next]. *)
Definition create_route (db : DB) (data : Body) (tokenUser : Z)
  : DB * result OrgUnit :=
  if isEmpty data
  then (db, Fail (UserError "No data provided" 400 None))
  else if negb (from_option truthy_int false (b_parentID data))
  then (db, Fail (UserError "No parent provided" 400 None))
  else
    let types := getTypes in
    if (indexOf (Some <$> types) (b_type data) =? -1)%Z ||
       bool_decide (b_type data = Some "Nation")
    then (db, Fail (UserError "Invalid org unit type" 400 None))
    else
      let type := default EmptyString (b_type data) in
      let checked : result string :=
        parent <- catch_throw (fetchUnit db (whereId (b_parentID data)))
                    (fun _ => UserError "Parent not found" 400 None) ;;
        let role := "org_create_" +:+ toLowerCase type in
        hasOverUnit db (UnitModel parent) role (OfficerId tokenUser) ;;;
        if negb (indexOf types type - 1 =? indexOf types (u_type parent))%Z
        then Fail (UserError "Org type doesn't match expected type" 400 None)
        else Ok (u_parentPath parent) in
      match checked with
      | Fail err => (db, finalCatch (Fail err))
      | Ok path =>
          let data := with_parentPath data (path +:+ ".") in
          let constraints := createConstraints in
          if bool_decide (type = "Venue")
          then
            (* [contraints.venueType.presence = true]: the identifier is
               not declared *)
            (db, finalCatch (Fail (ReferenceError "contraints")))
          else
            match catch_throw (validate_async data constraints) invalidData
            with
            | Fail err => (db, finalCatch (Fail (creatingError err)))
            | Ok attributes =>
                let '(db', saved) :=
                  transaction db (createTransaction attributes) in
                (db', finalCatch (catch_throw saved creatingError))
            end
      end.

(** The query of the update route: by id, or by code. *)
Definition update_query (id : string) : OrgUnit -> bool :=
  if NaN_strictNotEqual (parseInt id)
  then whereId (parseInt id)
  else whereCode id.

(** [router.put( '/:id' )]. *)
Definition update_route (db : DB) (id : string) (body : Body)
    (tokenUser : Z) : DB * result OrgUnit :=
  if isEmpty body
  then (db, Fail (UserError "No data provided" 400 None))
  else
    let checked : result (OrgUnit * Body) :=
      unit <- catch_throw (fetchUnit db (update_query id))
                (fun err => UserError "Org unit not found" 404 (Some err)) ;;
      hasOverUnit db (UnitModel unit) "org_update" (OfficerId tokenUser) ;;;
      attributes <- catch_throw (validate_async body updateConstraints)
                      invalidData ;;
      Ok (unit, attributes) in
    match checked with
    | Fail err => (db, finalCatch (Fail err))
    | Ok (unit, attributes) =>
        let unit := set_attributes unit attributes in
        (saveUnit db unit, Ok unit)
    end.

(** The body of the transaction of the delete route: the three writes are
    joined, and the rejection of one of them rejects the transaction. *)
Definition deleteTransaction (unit : OrgUnit) (t : DB)
  : result (DB * Datatypes.unit) :=
  let t := destroyOffices t (u_id unit) in
  t <- match last (parents unit) with
       | Some parent =>
           if truthy_int parent
           then patchUsers t (u_id unit) parent
           else Fail (UserError "No parent found" 500 None)
       | None => Fail (UserError "No parent found" 500 None)
       end ;;
  Ok (destroyUnit t unit, tt).

(** [router.delete( '/:id' )]. *)
Definition delete_route (db : DB) (id : string) (tokenUser : Z)
  : DB * result Datatypes.unit :=
  let id := parseInt id in
  let query : result (OrgUnit -> bool) :=
    if NaN_strictNotEqual id
    then
      if bool_decide (id = Some 1)
      then Fail (UserError "Cannot delete root org" 500 None)
      else Ok (whereId id)
    else
      (* [query.where( 'code', id )] with the number [NaN] *)
      Ok (fun _ => false) in
  match query with
  | Fail err => (db, Fail err)
  | Ok query =>
      let checked : result OrgUnit :=
        unit <- catch_throw (fetchUnit db query)
                  (fun err => UserError "Org unit not found" 404 (Some err)) ;;
        let role := "org_create_" +:+ toLowerCase (u_type unit) in
        hasOverUnit db (UnitModel unit) role (OfficerId tokenUser) ;;;
        (if negb (length (getChildren db unit) =? 0)%nat
         then Fail (UserError "Cannot delete org with children" 500 None)
         else Ok tt) ;;;
        Ok unit in
      match checked with
      | Fail err => (db, finalCatch (Fail err))
      | Ok unit =>
          let '(db', done) := transaction db (deleteTransaction unit) in
          (db', finalCatch done)
      end
  end.

End Routes.

(** ** An org-unit model read off the parent path *)

(** [s.split( sep )]; [cur] is the segment being read. *)
Fixpoint split_on (sep : ascii) (s : string) (cur : string) : list string :=
  match s with
  | EmptyString => [cur]
  | String c s' =>
      if decide (c = sep) then cur :: split_on sep s' EmptyString
      else split_on sep s' (cur +:+ String c EmptyString)
  end.

(** The ids a parent path lists, root first, own id last. *)
Definition pathIds (path : string) : list Z :=
  omap parseIntAscii (split_on "." path EmptyString).

(** Modelled from the spec: [unit.parents()] of [models/org_units.js], the
    ancestor ids of the parent path ("dot-joined chain of ancestor IDs
    ending in own ID"), root first and without the unit's own id. *)
Definition path_parents (u : OrgUnit) : list Z :=
  removelast (pathIds (u_parentPath u)).

(** Modelled from the spec: [unit.getParents()] of [models/org_units.js],
    "from immediate parent up to root, nearest first; empty for root". *)
Definition path_getParents (db : DB) (u : OrgUnit) : list OrgUnit :=
  omap (fun id => List.find (whereId (Some id)) (org_units db))
    (rev (path_parents u)).

(** Modelled from the spec: [unit.getChildren()] of [models/org_units.js],
    the units whose parent is the unit. *)
Definition path_getChildren (db : DB) (u : OrgUnit) : list OrgUnit :=
  List.filter (fun c => bool_decide (u_parentID c = Some (u_id u)))
    (org_units db).

(** The model the examples run on. *)
Definition pathModel : OrgUnitModel :=
  {| getParents := path_getParents;
     getChildren := path_getChildren;
     parents := path_parents |}.

(** A URL check for the examples: the text starts with [http]. *)
Definition prefixHelper : ValidationHelper :=
  {| isUrl := fun s => String.prefix "http" s;
     format := fun fields => String.concat ", " fields |}.

(** ** Sample data

    The tree of the specification's example: Nation 1, Region 2 under it,
    Domain 3 under the region. *)
Definition unit_row (id : Z) (code : option string) (type : string)
    (parent : option Z) (path : string) (lft rgt : Z) : OrgUnit :=
  {| u_id := id; u_code := code; u_name := Some type; u_type := type;
     u_parentID := parent; u_parentPath := path;
     u_lft := Some lft; u_rgt := Some rgt;
     u_venueType := None; u_location := None; u_defDoc := None;
     u_website := None |}.

Definition nation1 : OrgUnit := unit_row 1 (Some "US") "Nation" None "1" 1 10.
Definition region2 : OrgUnit := unit_row 2 (Some "NE") "Region" (Some 1) "1.2" 2 5.
Definition domain3 : OrgUnit := unit_row 3 (Some "NY") "Domain" (Some 2) "1.2.3" 3 4.

Definition sample_units : list OrgUnit := [nation1; region2; domain3].

Definition office_region : Office :=
  mkOffice 10 7 (Some 2) None None (Some ["org_update"]).
Definition office_national : Office :=
  mkOffice 11 5 (Some 1) None None
    (Some ["org_update"; "org_create_nation"; "org_create_region";
           "org_create_domain"; "org_create_venue"]).

(** Officer 7 holds a regional office, officer 5 the national one, officer
    8 none; users 20 and 21 belong to the domain, user 22 to no unit. *)
Definition sample_db : DB :=
  mkDB sample_units [office_region; office_national]
    [mkUser 20 (Some 3); mkUser 21 (Some 3); mkUser 22 None].

(** ** What the specification says of the resolver, in its own words *)

(** The offices an officer holds. *)
Definition heldOffices (db : DB) (officer : OfficerRef) : list Office :=
  match officer with
  | OfficerOffices held => held
  | OfficerId n => whereUserID db n
  | OfficerUser u => whereUserID db (usr_id u)
  end.

(** An office held by the officer whose roles contain the permission. *)
Definition grantingOffice (db : DB) (permission : string)
    (officer : OfficerRef) (o : Office) : Prop :=
  o ∈ heldOffices db officer ∧
  ∃ roles, o_roles o = Some roles ∧ permission ∈ roles.

Section Coverage.
Context `{M : OrgUnitModel}.

(** The domain of the office is the root unit, the unit itself, or one of
    its ancestors. *)
Definition coversUnit (db : DB) (unit : OrgUnit) (o : Office) : Prop :=
  o_parentOrgID o = Some 1 ∨
  o_parentOrgID o = Some (u_id unit) ∨
  ∃ a, a ∈ getParents db unit ∧ o_parentOrgID o = Some (u_id a).

(** The domain of the office is the user's unit or one of its ancestors. *)
Definition coversUser (db : DB) (user : UserModel) (orgUnit : Z)
    (o : Office) : Prop :=
  o_parentOrgID o = Some orgUnit ∨
  ∃ a, a ∈ getParents db (um_related_orgUnit user) ∧
       o_parentOrgID o = Some (u_id a).
End Coverage.

Definition user20 : UserModel := mkUserModel (mkUser 20 (Some 3)) domain3.

(** ** The chain of parent offices *)

(** [chainEnds db office n]: following [parentOfficeID] from the target,
    the [n]-th parent is an id without an office, or an office without a
    parent office. *)
Inductive chainEnds (db : DB) : OfficeRef → nat → Prop :=
| chain_missing office e :
    resolveOffice db office = Fail e → chainEnds db office 0
| chain_top office o :
    resolveOffice db office = Ok o →
    o_parentOfficeID o = None →
    chainEnds db office 0
| chain_step office o p n :
    resolveOffice db office = Ok o →
    o_parentOfficeID o = Some p →
    chainEnds db (OfficeId p) n →
    chainEnds db office (S n).

(** [onChain db office o]: [o] is the target or one of its parent offices. *)
Inductive onChain (db : DB) : OfficeRef → Office → Prop :=
| on_chain_here office o :
    resolveOffice db office = Ok o → onChain db office o
| on_chain_up office o p o' :
    resolveOffice db office = Ok o →
    o_parentOfficeID o = Some p →
    onChain db (OfficeId p) o' →
    onChain db office o'.

(** Two offices that are each other's parent office, and the office of
    officer 7, which carries the permission and is the parent of neither. *)
Definition office_A : Office := mkOffice 1 30 None (Some 2) None None.
Definition office_B : Office := mkOffice 2 31 None (Some 1) None None.
Definition office_G : Office :=
  mkOffice 3 7 (Some 1) None None (Some ["office_update"]).
Definition cyclic_db : DB := mkDB sample_units [office_A; office_B; office_G] [].

(** A chain A -> B -> C that ends: C has no parent office. *)
Definition office_A' : Office := mkOffice 1 30 None (Some 2) None None.
Definition office_B' : Office := mkOffice 2 31 None (Some 4) None None.
Definition office_C' : Office := mkOffice 4 32 (Some 1) None None None.
Definition chain_db : DB :=
  mkDB sample_units [office_A'; office_B'; office_C'; office_G] [].

(** ** Sample requests *)

Definition body_with (name code venueType type : option string)
    (parentID : option Z) : Body :=
  {| b_id := None; b_name := name; b_code := code;
     b_venueType := venueType; b_location := None; b_defDoc := None;
     b_website := None; b_type := type; b_parentID := parentID;
     b_parentPath := None |}.

(** A Domain under Region 2. *)
Definition body_domain : Body :=
  body_with (Some "Boston") (Some "BO") None (Some "Domain") (Some 2).

(** A Venue under Domain 3, with every attribute a venue needs. *)
Definition body_venue : Body :=
  body_with (Some "Club") (Some "CL") (Some "Troupe") (Some "Venue") (Some 3).

(** A Region under the Nation whose name is empty. *)
Definition body_region_unnamed : Body :=
  body_with (Some EmptyString) (Some "SW") None (Some "Region") (Some 1).

(** A new name, for an update. *)
Definition body_rename : Body :=
  body_with (Some "New York") None None None None.

(** The row the create route writes for [body_domain]. *)
Definition domain4 : OrgUnit :=
  {| u_id := 4; u_code := Some "BO"; u_name := Some "Boston";
     u_type := "Domain"; u_parentID := Some 2; u_parentPath := "1.2.4";
     u_lft := None; u_rgt := None; u_venueType := None; u_location := None;
     u_defDoc := None; u_website := None |}.



(** A Venue directly under Region 2: two ranks below its parent. *)
Definition body_venue_region : Body :=
  body_with (Some "Club") (Some "CL") (Some "Troupe") (Some "Venue") (Some 2).

(** ** The chain of a unit ([getChain], [sortChain]) *)

(** The JSON of a unit in the response: as fetched ([Plain]), or with the
    [children] array that [sortChain] adds ([Nested]). *)
Inductive Json : Type :=
| Plain (u : OrgUnit)
| Nested (u : OrgUnit) (children : list Json).

Definition unitOf (j : Json) : OrgUnit :=
  match j with Plain u => u | Nested u _ => u end.

(** [unit.children = []]. *)
Definition setChildren (j : Json) : Json := Nested (unitOf j) [].

(** [types.indexOf( units[ index ].type )]; a cell that was set to [false]
    has no type, and [indexOf( undefined )] is [-1]. *)
Definition depth (units : list (option Json)) (index : nat) : Z :=
  match units !! index with
  | Some (Some j) => indexOf getTypes (u_type (unitOf j))
  | _ => -1
  end.

(** [units[ u ].children.push( units[ i ] ); units[ i ] = false;].  The
    test before it holds for an object at [i] only; [None] is the
    [TypeError] of a cell at [u] without a [children] array. *)
Definition attach (units : list (option Json)) (i u : nat)
  : option (list (option Json)) :=
  match units !! u, units !! i with
  | Some (Some (Nested p cs)), Some (Some c) =>
      Some (<[i := None]> (<[u := Some (Nested p (cs ++ [c])%list)]> units))
  | _, _ => None
  end.

(** The inner loop of [sortChain], [u] running from [n - 1] down to [0]. *)
Fixpoint innerLoop (units : list (option Json)) (i n : nat)
  : option (list (option Json)) :=
  match n with
  | O => Some units
  | S u =>
      if (depth units i >? depth units u)%Z then attach units i u
      else innerLoop units i u
  end.

(** The outer loop of [sortChain], [i] running from [n] down to [1]. *)
Fixpoint outerLoop (units : list (option Json)) (n : nat)
  : option (list (option Json)) :=
  match n with
  | O => Some units
  | S i' =>
      match innerLoop units (S i') (S i') with
      | Some units' => outerLoop units' i'
      | None => None
      end
  end.

(** [_.compact( units )]: the cells that were not set to [false]. *)
Definition compact (units : list (option Json)) : list Json :=
  omap (fun cell => cell) units.

(** [sortChain( units )]; [None] when the scan raises. *)
Definition sortChain (units : list Json) : option (list Json) :=
  match outerLoop (List.map (fun j => Some (setChildren j)) units)
          (length units - 1) with
  | Some units' => Some (compact units')
  | None => None
  end.

(** The units of a tree and of a forest, parents before children. *)
Fixpoint flatten (j : Json) : list OrgUnit :=
  match j with
  | Plain u => [u]
  | Nested u cs => u :: flat_map flatten cs
  end.

Definition flattenForest (forest : list Json) : list OrgUnit :=
  flat_map flatten forest.

(** Every child in the tree has a type of higher rank than its parent. *)
Inductive Ranked : Json → Prop :=
| ranked_plain u : Ranked (Plain u)
| ranked_nested u cs :
    Forall (fun c =>
              (indexOf getTypes (u_type u)
               < indexOf getTypes (u_type (unitOf c)))%Z
              ∧ Ranked c) cs →
    Ranked (Nested u cs).

(** [a < b] on two bounds; a bound that is [NULL] converts to [0]. *)
Definition bound_lt (a b : option Z) : bool := (default 0 a <? default 0 b)%Z.

(** [_.omit( m, [ 'lft', 'rgt' ] )]. *)
Definition omitBounds (u : OrgUnit) : OrgUnit :=
  {| u_id := u_id u; u_code := u_code u; u_name := u_name u;
     u_type := u_type u; u_parentID := u_parentID u;
     u_parentPath := u_parentPath u;
     u_lft := None; u_rgt := None;
     u_venueType := u_venueType u; u_location := u_location u;
     u_defDoc := u_defDoc u; u_website := u_website u |}.

(** The response of the two read routes. *)
Record ChainResponse : Type := mkChainResponse {
  r_unit : OrgUnit;
  r_children : list Json;
  r_parents : list Json
}.

(** [unit.getChain()] of the org-unit model: the rows around a unit, or
    nothing. *)
Class ChainModel : Type := {
  getChainRows : DB -> OrgUnit -> result (option (list OrgUnit))
}.

Section Chain.
Context `{C : ChainModel} `{J : Builtins}.

(** [getChain( unit )], for the promise of a fetched unit. *)
Definition getChain (db : DB) (unit : result OrgUnit) : result ChainResponse :=
  unit <- unit ;;
  chain <- getChainRows db unit ;;
  match chain with
  | Some rows =>
      let left := u_lft unit in
      let split := List.partition (fun r => bound_lt (u_lft r) left) rows in
      let parents := List.map (fun m => Plain (omitBounds m)) (fst split) in
      let children := List.map (fun m => Plain (omitBounds m)) (snd split) in
      if (1 <? length children)%nat
      then
        match sortChain children with
        | Some sorted => Ok (mkChainResponse unit sorted parents)
        | None => Fail (PlainError "TypeError")
        end
      else Ok (mkChainResponse unit children parents)
  | None => Ok (mkChainResponse unit [] [])
  end.

(** [NaN === id]: no value is strictly equal to [NaN]. *)
Definition NaN_strictEqual (x : Num) : bool := false.

(** [router.get( '/internal/:id' )], past the network filter. *)
Definition internal_route (db : DB) (id : string) : result ChainResponse :=
  let id := parseInt id in
  if NaN_strictEqual id then Fail (PlainError "Invalid org id")
  else
    catch_throw (getChain db (fetchUnit db (whereId id)))
      (fun err => UserError "Org unit not found" 404 (Some err)).

End Chain.

(** Modelled from the spec: [unit.getChain()] of [models/org_units.js], "all
    units whose [lft, rgt] intersects the ancestor/descendant relationship
    with unit": the rows whose interval contains the unit's or lies within
    it, the unit itself left out, by ascending [lft]. *)
Definition interval_getChainRows (db : DB) (u : OrgUnit)
  : result (option (list OrgUnit)) :=
  let inside (a b : OrgUnit) : bool :=
    bound_lt (u_lft b) (u_lft a) && bound_lt (u_rgt a) (u_rgt b) in
  Ok (Some (List.filter (fun r => inside u r || inside r u) (org_units db))).

Definition intervalModel : ChainModel :=
  {| getChainRows := interval_getChainRows |}.

(** A Region with two Domains, the first of them with two Venues. *)
Definition venue5 : OrgUnit :=
  unit_row 5 None "Venue" (Some 3) "1.2.3.5" 4 5.
Definition venue6 : OrgUnit :=
  unit_row 6 None "Venue" (Some 3) "1.2.3.6" 6 7.
Definition chain_units : list OrgUnit :=
  [unit_row 1 (Some "US") "Nation" None "1" 1 14;
   unit_row 2 (Some "NE") "Region" (Some 1) "1.2" 2 13;
   unit_row 3 (Some "NY") "Domain" (Some 2) "1.2.3" 3 8;
   venue5; venue6;
   unit_row 7 (Some "BO") "Domain" (Some 2) "1.2.7" 9 10].
Definition tree_db : DB := mkDB chain_units [] [].

(** ** The state of the scan of [sortChain] *)

(** The cells below [n] are objects with a [children] array. *)
Definition cellsNested (units : list (option Json)) (n : nat) : Prop :=
  ∀ k, (k < n)%nat → ∃ p cs, units !! k = Some (Some (Nested p cs)).

(** The units of all cells of the array. *)
Definition cellUnits (units : list (option Json)) : list OrgUnit :=
  flat_map (fun cell => from_option flatten [] cell) units.

(** How often a unit occurs in a list. *)
Definition occurrences (x : OrgUnit) (l : list OrgUnit) : nat :=
  count_occ OrgUnit_eq_dec l x.

(** Every tree in the array is ranked. *)
Definition cellsRanked (units : list (option Json)) : Prop :=
  ∀ k j, units !! k = Some (Some j) → Ranked j.

(** The first cell holds the unit [u0], with some children. *)
Definition headIs (u0 : OrgUnit) (units : list (option Json)) : Prop :=
  ∃ cs, units !! 0%nat = Some (Some (Nested u0 cs)).

(** ** The token middleware ([middlewares/token.js]) *)

(** A row of the token table: the token and the id of its user. *)
Record Token : Type := mkToken {
  t_token : string;
  t_user : Z
}.

(** The token model is not among the sources; the middleware uses its
    [notExpired()] scope and its [user] relation. *)
Class TokenModel : Type := {
  notExpired : Token -> bool;
  related_user : Token -> User
}.

(** What [req.token] holds: nothing yet, [null], or a fetched token. *)
Inductive TokenSlot : Type :=
| SlotUnset
| SlotNull
| SlotToken (t : Token).

(** The parts of a request the middleware reads and writes. *)
Record Request : Type := mkRequest {
  req_query_token : option string;
  req_cookie_token : option string;
  req_token : TokenSlot;
  req_user : option User
}.

(** The calls on the token model that follow [next()]. *)
Inductive TokenCall : Type :=
| RemoveExpired
| Refresh (t : Token).

(** How a middleware ends: [next()] with the request as it then is, or
    [next( err )] with an error that carries a status. *)
Inductive Outcome : Type :=
| Next (req : Request) (calls : list TokenCall)
| NextError (msg : string) (status : Z).

(** [exports.normalize]: a token in the cookies replaces the one of the
    query string. *)
Definition normalize (req : Request) : Outcome :=
  let req :=
    match req_cookie_token req with
    | Some token =>
        mkRequest (Some token) (req_cookie_token req) (req_token req)
          (req_user req)
    | None => req
    end in
  Next req [RemoveExpired].

Section TokenMiddleware.
Context `{T : TokenModel}.

(** [new Token({ token: value }).notExpired().fetch()]: the first row with
    the token that has not expired. *)
Definition fetchToken (tokens : list Token) (value : string) : option Token :=
  List.find (fun t => bool_decide (t_token t = value) && notExpired t) tokens.

(** [query( req, next, required, fetch )]; an argument left out is
    [undefined], here [None]. *)
Definition query (tokens : list Token) (req : Request)
    (required fetch : option bool) : Outcome :=
  let required := default true required in
  let fetch := default false fetch in
  match req_query_token req with
  | None =>
      if required then NextError "Token not provided" 401 else Next req []
  | Some value =>
      match fetchToken tokens value with
      | Some token =>
          Next (mkRequest (req_query_token req) (req_cookie_token req)
                  (SlotToken token)
                  (if fetch then Some (related_user token) else req_user req))
            [Refresh token]
      | None =>
          if required
          then
            (* [fetch({ require: true })] rejects, the [.catch] answers *)
            NextError "Invalid token" 401
          else
            Next (mkRequest (req_query_token req) (req_cookie_token req)
                    SlotNull (req_user req)) []
      end
  end.

(** [exports.validate( required )] and [exports.parse( required )]. *)
Definition validate (required : option bool) (tokens : list Token)
    (req : Request) : Outcome :=
  query tokens req required None.

Definition parse (required : option bool) (tokens : list Token)
    (req : Request) : Outcome :=
  query tokens req required (Some true).

(** Two middlewares in a row: the second runs on the request the first
    hands on, and an error of the first ends the chain. *)
Definition andThen (first : Outcome) (second : Request -> Outcome) : Outcome :=
  match first with
  | Next req calls =>
      match second req with
      | Next req' calls' => Next req' (calls ++ calls')%list
      | NextError msg status => NextError msg status
      end
  | NextError msg status => NextError msg status
  end.

End TokenMiddleware.

(** ** The search route ([router.get( '/search' )]) *)

(** The query the route builds is run by the Bookshelf model on the
    database; neither is among the sources, and how the database compares
    texts (its collation, its [LIKE]) is left open: [query.fetchAll()] is
    taken as an interface. *)
Class OrgUnitQuery : Type := {
  fetchAll : DB -> list Where -> result (list OrgUnit)
}.

(** How the route ends: the token middleware refuses the request; the
    handler hands an error to [next], or raises one that Express hands to
    [next]; or the query is run, and its rows are answered or its failure
    is handed to [next]. *)
Inductive SearchAnswer : Type :=
| TokenRefused (msg : string) (status : Z)
| Rejected (e : Err)
| Searched (conds : list Where) (answer : result (list OrgUnit)).

(** The [.catch] of the search: a [UserError] goes to [next] as it is,
    anything else as a 500. *)
Definition searchCatch {A} (r : result A) : result A :=
  catch_throw r
    (fun err =>
       if instanceof_UserError err then err
       else UserError "Search failed" 500 (Some err)).

Section Search.
Context `{T : TokenModel} `{J : Builtins} `{Q : OrgUnitQuery}.

(** [_.mapValues( params, v => v.toLowerCase() )]: an array or an object
    has no [toLowerCase], and the call raises a [TypeError]. *)
Definition mapValues_toLowerCase (params : gmap string QueryValue)
  : result (gmap string string) :=
  if bool_decide (map_Forall (fun _ v => is_Some (stringValue v)) params)
  then Ok (omap (fun v => toLowerCase <$> stringValue v) params)
  else Fail (TypeError "v.toLowerCase is not a function").

(** [router.get( '/search', token.validate(), handler )].  [req] holds the
    token of the query string, which the middleware reads, and [params] the
    other parameters of the query string: what
    [_.omit( req.query, 'token' )] gives the handler. *)
Definition search_route (tokens : list Token) (db : DB) (req : Request)
    (params : gmap string QueryValue) : SearchAnswer :=
  match validate None tokens req with
  | NextError msg status => TokenRefused msg status
  | Next _ _ =>
      if bool_decide (params = ∅)
      then Rejected (UserError "No search params provided" 400 None)
      else
        match mapValues_toLowerCase params with
        | Fail err => Rejected err
        | Ok params =>
            let types := List.map toLowerCase getTypes in
            if truthy (params !! "type") &&
               (indexOf (Some <$> types) (params !! "type") =? -1)%Z
            then Rejected (UserError "Invalid type specified" 400 None)
            else
              let checked : result (gmap string string) :=
                if truthy (params !! "venue") &&
                   bool_decide (params !! "type" = None)
                then Ok (<["type" := "venue"]> params)
                else if truthy (params !! "venue") &&
                        negb (bool_decide (params !! "type" = Some "venue"))
                then Fail (UserError
                             ("Invalid type with " +:+ dquote +:+ "venue"
                              +:+ dquote +:+ " option") 400 None)
                else Ok params in
              match checked with
              | Fail err => Rejected err
              | Ok params =>
                  if truthy (params !! "code") &&
                     (truthy (params !! "venue") ||
                      bool_decide (params !! "type" = Some "venue"))
                  then Rejected
                         (UserError "Venue type does not have codes" 400 None)
                  else
                    let conds :=
                      (whereIf (params !! "name")
                         (fun v => WhereLike "name" ("%" +:+ v +:+ "%")) ++
                       whereIf (params !! "code")
                         (fun v => WhereLike "code" ("%" +:+ v +:+ "%")) ++
                       whereIf (params !! "type") (WhereEq "type") ++
                       whereIf (params !! "venue") (WhereEq "venueType"))%list
                    in
                    Searched conds (searchCatch (fetchAll db conds))
              end
        end
  end.

End Search.

(** Every parameter of the query string is a string. *)
Definition stringParams (params : gmap string QueryValue) : Prop :=
  map_Forall (fun _ v => is_Some (stringValue v)) params.

(** Every parameter that is a string is a text of ASCII characters. *)
Definition isAsciiValue (v : QueryValue) : bool :=
  match v with
  | QString s => isAsciiText s
  | _ => true
  end.

Definition asciiParams (params : gmap string QueryValue) : Prop :=
  map_Forall (fun _ v => isAsciiValue v = true) params.

(** A parameter with its text, if it is one, in lower case. *)
Definition lowerValue `{J : Builtins} (v : QueryValue) : QueryValue :=
  match v with
  | QString s => QString (toLowerCase s)
  | _ => v
  end.

(** A token model for the examples: tokens that start with [old] have
    expired, and the user of a token belongs to no unit. *)
Definition sampleTokens : TokenModel :=
  {| notExpired := fun t => negb (String.prefix "old" (t_token t));
     related_user := fun t => mkUser (t_user t) None |}.

Definition token_table : list Token :=
  [mkToken "old-abc" 5; mkToken "abc" 5; mkToken "xyz" 7].

(** A request with the token of the national officer. *)
Definition req_abc : Request := mkRequest (Some "abc") None SlotUnset None.

(** [text LIKE pattern], with [%] for any run of characters and [_] for any
    one character. *)
Fixpoint like (pattern text : string) : bool :=
  match pattern with
  | EmptyString => bool_decide (text = EmptyString)
  | String c pattern' =>
      if Ascii.eqb c "%"
      then
        (fix skip (t : string) : bool :=
           like pattern' t ||
           match t with
           | String _ t' => skip t'
           | EmptyString => false
           end) text
      else
        match text with
        | String d text' =>
            (Ascii.eqb c "_" || Ascii.eqb c d) && like pattern' text'
        | EmptyString => false
        end
  end.

(** The columns the search names. *)
Definition column (name : string) (u : OrgUnit) : option string :=
  if bool_decide (name = "name") then u_name u
  else if bool_decide (name = "code") then u_code u
  else if bool_decide (name = "type") then Some (u_type u)
  else if bool_decide (name = "venueType") then u_venueType u
  else None.

Definition holds (u : OrgUnit) (w : Where) : bool :=
  match w with
  | WhereEq c v => bool_decide (column c u = Some v)
  | WhereLike c p =>
      match column c u with Some t => like p t | None => false end
  end.

(** A database for the examples that compares texts as they are, upper and
    lower case apart. *)
Definition exactQuery : OrgUnitQuery :=
  {| fetchAll := fun db conds =>
       Ok (List.filter (fun u => forallb (holds u) conds) (org_units db)) |}.

(** The parameters of four search requests; the last is
    [?venue=&type=domain]. *)
Definition query_venue : gmap string QueryValue :=
  list_to_map [("venue", QString "Troupe")].
Definition query_venue_domain : gmap string QueryValue :=
  list_to_map [("venue", QString "Troupe"); ("type", QString "Domain")].
Definition query_code_venue : gmap string QueryValue :=
  list_to_map [("code", QString "NY"); ("type", QString "VENUE")].
Definition query_empty_venue : gmap string QueryValue :=
  list_to_map [("venue", QString EmptyString); ("type", QString "domain")].

(** [?name=a&name=b]: a repeated parameter is an array. *)
Definition query_repeated : gmap string QueryValue :=
  list_to_map [("name", QArray ["a"; "b"])].

(** ** The path of the public read route *)

Definition toUpperCase_ascii (c : ascii) : ascii :=
  let n := nat_of_ascii c in
  if (Nat.leb 97 n && Nat.leb n 122)%bool then ascii_of_nat (n - 32) else c.

(** [s.toUpperCase()] on ASCII text, which is all that the pattern of the
    route captures. *)
Fixpoint toUpperCase (s : string) : string :=
  match s with
  | EmptyString => EmptyString
  | String c s' => String (toUpperCase_ascii c) (toUpperCase s')
  end.

(** [[a-zA-Z]]. *)
Definition isLetter (c : ascii) : bool :=
  let n := nat_of_ascii c in
  (Nat.leb 65 n && Nat.leb n 90) || (Nat.leb 97 n && Nat.leb n 122).

(** [[A-Z]]. *)
Definition isUpper (c : ascii) : bool :=
  let n := nat_of_ascii c in Nat.leb 65 n && Nat.leb n 90.

(** [[\-\d]]. *)
Definition isDigitOrHyphen (c : ascii) : bool :=
  let n := nat_of_ascii c in
  Nat.eqb n 45 || (Nat.leb 48 n && Nat.leb n 57).

(** [[\-\d]*\/?$]: the digits and hyphens up to the end of the path or to a
    last slash. *)
Fixpoint matchTail (s : string) : option string :=
  match s with
  | EmptyString => Some EmptyString
  | String c s' =>
      if isDigitOrHyphen c then String c <$> matchTail s'
      else if bool_decide (c = "/"%char) && bool_decide (s' = EmptyString)
      then Some EmptyString
      else None
  end.

(** The group the pattern of the route captures on a path that matches:
    a slash, two letters and any digits and hyphens (the group), an optional
    last slash, the end of the path. *)
Definition matchCode (path : string) : option string :=
  match path with
  | String "/" (String a (String b rest)) =>
      if isLetter a && isLetter b
      then (fun tail => String a (String b tail)) <$> matchTail rest
      else None
  | _ => None
  end.

(** [req.params[0].toUpperCase()]: the code the route fetches the unit by. *)
Definition routeCode (path : string) : option string :=
  toUpperCase <$> matchCode path.

Fixpoint allDigitsOrHyphens (s : string) : bool :=
  match s with
  | EmptyString => true
  | String c s' => isDigitOrHyphen c && allDigitsOrHyphens s'
  end.

(** Two upper-case letters, then digits and hyphens. *)
Definition isRouteCode (code : string) : bool :=
  match code with
  | String a (String b tail) =>
      isUpper a && isUpper b && allDigitsOrHyphens tail
  | _ => false
  end.

(** * Properties *)

(** ** Lists and outcomes *)

Lemma indexOf_lower {A} `{EqDecision A} (a : list A) (x : A) :
  (-1 ≤ indexOf a x)%Z.
Proof.
  induction a as [|y a IH]; simpl; [lia|].
  destruct (decide (y = x)); [lia|].
  destruct (indexOf a x =? -1)%Z eqn:Hi; lia.
Qed.

(** [indexOf] finds exactly the elements of the array. *)
Lemma indexOf_found {A} `{EqDecision A} (a : list A) (x : A) :
  indexOf a x ≠ (-1)%Z ↔ x ∈ a.
Proof.
  induction a as [|y a IH]; simpl.
  - split; [done | intros Hin; by apply elem_of_nil in Hin].
  - rewrite elem_of_cons. destruct (decide (y = x)) as [Heq | Hne].
    + split; [auto | lia].
    + pose proof (indexOf_lower a x) as Hlow.
      destruct (indexOf a x =? -1)%Z eqn:Hi.
      * apply Z.eqb_eq in Hi. split; [done|].
        intros [Heq | Hin]; [congruence | by apply IH in Hin].
      * apply Z.eqb_neq in Hi. split; [intros _; right; by apply IH | lia].
Qed.

Lemma includes_true {A} `{EqDecision A} (a : list A) (x : A) :
  includes a x = true ↔ x ∈ a.
Proof.
  unfold includes. rewrite negb_true_iff, Z.eqb_neq. apply indexOf_found.
Qed.

Lemma includes_false {A} `{EqDecision A} (a : list A) (x : A) :
  includes a x = false ↔ x ∉ a.
Proof.
  unfold includes. rewrite negb_false_iff, Z.eqb_eq, <- indexOf_found.
  destruct (decide (indexOf a x = -1)); tauto.
Qed.

Lemma indexOf_Some (l : list string) (s : string) :
  indexOf (Some <$> l) (Some s) = indexOf l s.
Proof.
  induction l as [|y l IH]; [done|].
  cbn [fmap list_fmap indexOf].
  change (list_fmap string (option string) Some l) with (Some <$> l).
  rewrite IH.
  destruct (decide (Some y = Some s)) as [Heq | Hne];
    destruct (decide (y = s)) as [Heq' | Hne']; try done; congruence.
Qed.

Lemma indexOf_None (l : list string) : indexOf (Some <$> l) None = (-1)%Z.
Proof.
  induction l as [|y l IH]; [done|].
  cbn [fmap list_fmap indexOf].
  change (list_fmap string (option string) Some l) with (Some <$> l).
  rewrite IH. by destruct (decide (Some y = None)).
Qed.

Lemma grants_true permission o :
  grants permission o = true ↔
  ∃ roles, o_roles o = Some roles ∧ permission ∈ roles.
Proof.
  unfold grants. destruct (o_roles o) as [roles|].
  - rewrite includes_true. split.
    + intros Hin. exists roles. auto.
    + intros (roles' & Heq & Hin). congruence.
  - split; [discriminate | intros (roles & Heq & _); discriminate].
Qed.

Lemma fetchAll_require_Ok {A} (rows held : list A) :
  fetchAll_require rows = Ok held → held = rows ∧ rows ≠ [].
Proof. destruct rows; simpl; intros Heq; inversion Heq; split; congruence. Qed.

Lemma fetchAll_require_Fail {A} (rows : list A) e :
  fetchAll_require rows = Fail e → rows = [] ∧ e = EmptyError.
Proof. destruct rows; simpl; intros Heq; inversion Heq; auto. Qed.

(** ** [normalizeOfficer] and [has] *)

Lemma normalizeOfficer_Ok db officer held :
  normalizeOfficer db officer = Ok held → held = heldOffices db officer.
Proof.
  destruct officer; simpl; intros Heq.
  - apply fetchAll_require_Ok in Heq. tauto.
  - apply fetchAll_require_Ok in Heq. tauto.
  - congruence.
Qed.

Lemma normalizeOfficer_Fail db officer e :
  normalizeOfficer db officer = Fail e → heldOffices db officer = [].
Proof.
  destruct officer; simpl; intros Heq.
  - apply fetchAll_require_Fail in Heq. tauto.
  - apply fetchAll_require_Fail in Heq. tauto.
  - discriminate.
Qed.

Lemma has_Ok db permission officer held :
  normalizeOfficer db officer = Ok held →
  has db permission officer = Ok (List.filter (grants permission) held).
Proof. intros Heq. unfold has. rewrite Heq. reflexivity. Qed.

Lemma has_Fail db permission officer e :
  normalizeOfficer db officer = Fail e →
  has db permission officer = Fail (PlainError "User has no offices").
Proof. intros Heq. unfold has. rewrite Heq. reflexivity. Qed.

(** [has] has two outcomes only: the filtered offices, or the error of an
    officer without offices. *)
Lemma has_cases db permission officer :
  has db permission officer
    = Ok (List.filter (grants permission) (heldOffices db officer))
  ∨ (has db permission officer = Fail (PlainError "User has no offices")
     ∧ heldOffices db officer = []).
Proof.
  destruct (normalizeOfficer db officer) as [held|e] eqn:Heq.
  - left. rewrite (has_Ok _ _ _ _ Heq).
    by rewrite (normalizeOfficer_Ok _ _ _ Heq).
  - right. split; [by eapply has_Fail | by eapply normalizeOfficer_Fail].
Qed.

(** The domains of the granting offices. *)
Lemma elem_of_officeOrgs db permission officer (k : Z) :
  Some k ∈ mapCollection
             (List.filter (grants permission) (heldOffices db officer))
             o_parentOrgID
  ↔ ∃ o, grantingOffice db permission officer o ∧ o_parentOrgID o = Some k.
Proof.
  unfold mapCollection, grantingOffice.
  rewrite list_elem_of_In, in_map_iff. split.
  - intros (o & Hk & Hin). apply filter_In in Hin as [Hin Hg].
    exists o. rewrite list_elem_of_In, <- grants_true. auto.
  - intros (o & [Hin Hg] & Hk). exists o. split; [done|].
    apply filter_In. rewrite <- list_elem_of_In, grants_true. auto.
Qed.

(** ** The walk up the ancestors *)

Lemma chainLoop_cases parents officeOrgs :
  (chainLoop parents officeOrgs = Ok true
   ∧ ∃ p, p ∈ parents ∧ Some (u_id p) ∈ officeOrgs)
  ∨ (chainLoop parents officeOrgs
       = Fail (PlainError "Officer not found in chain")
     ∧ ∀ p, p ∈ parents → Some (u_id p) ∉ officeOrgs).
Proof.
  induction parents as [|p rest IH]; simpl.
  - right. split; [done|]. intros p Hp. by apply elem_of_nil in Hp.
  - destruct (includes officeOrgs (Some (u_id p))) eqn:Hinc.
    + left. split; [done|]. exists p. split; [apply elem_of_cons; auto|].
      by apply includes_true.
    + apply includes_false in Hinc.
      destruct IH as [[Heq (q & Hq & Hin)] | [Heq Hnone]].
      * left. split; [done|]. exists q. split; [apply elem_of_cons; auto|done].
      * right. split; [done|]. intros q Hq.
        apply elem_of_cons in Hq as [-> | Hq]; auto.
Qed.

Section ResolverProperties.
Context `{M : OrgUnitModel}.

(** The three tests of [hasOverUnit] on a fetched unit. *)
Lemma unit_tests_cases db permission officer target :
  let officeOrgs :=
    mapCollection (List.filter (grants permission) (heldOffices db officer))
      o_parentOrgID in
  let outcome :=
    if includes officeOrgs (Some 1) then Ok true
    else if includes officeOrgs (Some (u_id target)) then Ok true
    else chainLoop (getParents db target) officeOrgs in
  (outcome = Ok true
   ∧ ∃ o, grantingOffice db permission officer o ∧ coversUnit db target o)
  ∨ (outcome = Fail (PlainError "Officer not found in chain")
     ∧ ¬ ∃ o, grantingOffice db permission officer o ∧ coversUnit db target o).
Proof.
  intros officeOrgs outcome. subst outcome.
  destruct (includes officeOrgs (Some 1)) eqn:Hroot.
  { left. split; [done|]. apply includes_true, elem_of_officeOrgs in Hroot.
    destruct Hroot as (o & Hg & Hk). exists o. split; [done|]. by left. }
  destruct (includes officeOrgs (Some (u_id target))) eqn:Hself.
  { left. split; [done|]. apply includes_true, elem_of_officeOrgs in Hself.
    destruct Hself as (o & Hg & Hk). exists o. split; [done|]. right. by left. }
  apply includes_false in Hroot, Hself.
  destruct (chainLoop_cases (getParents db target) officeOrgs)
    as [[Heq (p & Hp & Hin)] | [Heq Hnone]].
  - left. split; [done|]. apply elem_of_officeOrgs in Hin.
    destruct Hin as (o & Hg & Hk). exists o. split; [done|].
    right. right. exists p. auto.
  - right. split; [done|]. intros (o & Hg & [Hk | [Hk | (a & Ha & Hk)]]).
    + apply Hroot, elem_of_officeOrgs. eauto.
    + apply Hself, elem_of_officeOrgs. eauto.
    + apply (Hnone a Ha), elem_of_officeOrgs. eauto.
Qed.

Lemma hasOverUnit_resolved db unit permission officer held target :
  normalizeOfficer db officer = Ok held →
  resolveUnit db unit = Ok target →
  hasOverUnit db unit permission officer =
    let officeOrgs :=
      mapCollection
        (List.filter (grants permission) (heldOffices db officer))
        o_parentOrgID in
    if includes officeOrgs (Some 1) then Ok true
    else if includes officeOrgs (Some (u_id target)) then Ok true
    else chainLoop (getParents db target) officeOrgs.
Proof.
  intros Hheld Hunit. unfold hasOverUnit.
  rewrite (has_Ok _ _ _ _ Hheld), (normalizeOfficer_Ok _ _ _ Hheld).
  simpl. rewrite Hunit. reflexivity.
Qed.


(** The tests of [hasOverUser] for a user attached to a unit. *)
Lemma user_tests_cases db permission officer user orgUnit :
  let officeOrgs :=
    mapCollection (List.filter (grants permission) (heldOffices db officer))
      o_parentOrgID in
  let outcome :=
    if includes officeOrgs (Some orgUnit) then Ok true
    else chainLoop (getParents db (um_related_orgUnit user)) officeOrgs in
  (outcome = Ok true
   ∧ ∃ o, grantingOffice db permission officer o
          ∧ coversUser db user orgUnit o)
  ∨ (outcome = Fail (PlainError "Officer not found in chain")
     ∧ ¬ ∃ o, grantingOffice db permission officer o
              ∧ coversUser db user orgUnit o).
Proof.
  intros officeOrgs outcome. subst outcome.
  destruct (includes officeOrgs (Some orgUnit)) eqn:Hself.
  { left. split; [done|]. apply includes_true, elem_of_officeOrgs in Hself.
    destruct Hself as (o & Hg & Hk). exists o. split; [done|]. by left. }
  apply includes_false in Hself.
  destruct (chainLoop_cases (getParents db (um_related_orgUnit user))
              officeOrgs) as [[Heq (p & Hp & Hin)] | [Heq Hnone]].
  - left. split; [done|]. apply elem_of_officeOrgs in Hin.
    destruct Hin as (o & Hg & Hk). exists o. split; [done|].
    right. exists p. auto.
  - right. split; [done|]. intros (o & Hg & [Hk | (a & Ha & Hk)]).
    + apply Hself, elem_of_officeOrgs. eauto.
    + apply (Hnone a Ha), elem_of_officeOrgs. eauto.
Qed.

(** C9, as the code has it.  For a user without an [orgUnit],
    [hasOverUser] grants if and only if some granting office has the root
    unit 1 as its domain.  For a user with an [orgUnit] it grants if and
    only if a granting office's domain is the user's unit or an ancestor of
    it; when there is none it fails with "Officer not found in chain" if
    the officer holds at least one office, and with the error of [has],
    "User has no offices", if the officer holds none. *)
Theorem hasOverUser_grants_iff db user permission officer :
  (usr_orgUnit (um_user user) = None →
   (hasOverUser db user permission officer = Ok true
    ↔ ∃ o, grantingOffice db permission officer o
           ∧ o_parentOrgID o = Some 1))
  ∧ (∀ orgUnit, usr_orgUnit (um_user user) = Some orgUnit →
       (hasOverUser db user permission officer = Ok true
        ↔ ∃ o, grantingOffice db permission officer o
               ∧ coversUser db user orgUnit o)
       ∧ ((¬ ∃ o, grantingOffice db permission officer o
                  ∧ coversUser db user orgUnit o) →
          hasOverUser db user permission officer =
            match normalizeOfficer db officer with
            | Ok _ => Fail (PlainError "Officer not found in chain")
            | Fail _ => Fail (PlainError "User has no offices")
            end)).
Proof.
  split.
  - intros Hnone. unfold hasOverUser. rewrite Hnone.
    destruct (has_cases db permission officer) as [Hhas | [Hhas Hheld]];
      rewrite Hhas; simpl.
    + destruct (includes _ (Some 1)) eqn:Hroot.
      * apply includes_true, elem_of_officeOrgs in Hroot. split; auto.
      * apply includes_false in Hroot. split; [discriminate|].
        intros Hex. exfalso. by apply Hroot, elem_of_officeOrgs.
    + split; [discriminate|]. intros (o & [Hin _] & _).
      rewrite Hheld in Hin. by apply elem_of_nil in Hin.
  - intros orgUnit Hsome. unfold hasOverUser. rewrite Hsome.
    destruct (normalizeOfficer db officer) as [held|e] eqn:Hnorm.
    + rewrite (has_Ok _ _ _ _ Hnorm), (normalizeOfficer_Ok _ _ _ Hnorm).
      simpl.
      destruct (user_tests_cases db permission officer user orgUnit)
        as [[Heq Hex] | [Heq Hno]]; simpl in Heq; rewrite Heq.
      * split; [split; auto | intros Hno; contradiction].
      * split; [split; [discriminate | intros Hex; contradiction] | auto].
    + rewrite (has_Fail _ _ _ _ Hnorm). simpl.
      split; [split; [discriminate|] | auto].
      intros (o & [Hin _] & _).
      rewrite (normalizeOfficer_Fail _ _ _ Hnorm) in Hin.
      by apply elem_of_nil in Hin.
Qed.

End ResolverProperties.


(** *** The resolver on the sample data *)



Lemma hasOverUser_grants_witness :
  hasOverUser (M := pathModel) sample_db user20 "org_update" (OfficerId 7)
    = Ok true
  ∧ ∃ o, grantingOffice sample_db "org_update" (OfficerId 7) o
         ∧ coversUser (M := pathModel) sample_db user20 3 o.
Proof.
  destruct (hasOverUser_grants_iff (M := pathModel) sample_db user20
              "org_update" (OfficerId 7)) as [_ Hmain].
  destruct (Hmain 3 eq_refl) as [Hiff _].
  split; [reflexivity | apply Hiff; reflexivity].
Defined.

(** C9 as stated fails for an officer who holds no office: the user has a
    unit, no granting office covers it, and the failure is "User has no
    offices". *)
Lemma hasOverUser_no_offices_counterexample :
  usr_orgUnit (um_user user20) = Some 3
  ∧ (¬ ∃ o, grantingOffice sample_db "org_update" (OfficerId 8) o
            ∧ coversUser (M := pathModel) sample_db user20 3 o)
  ∧ hasOverUser (M := pathModel) sample_db user20 "org_update" (OfficerId 8)
      = Fail (PlainError "User has no offices")
  ∧ hasOverUser (M := pathModel) sample_db user20 "org_update" (OfficerId 8)
      ≠ Fail (PlainError "Officer not found in chain").
Proof.
  split; [reflexivity | split; [|split]].
  - intros (o & [Hin _] & _). simpl in Hin. by apply elem_of_nil in Hin.
  - reflexivity.
  - discriminate.
Qed.

(** C2 on the code: officer 7 holds an office, none of the offices held
    carries [org_create_venue], and [has] resolves with the empty
    collection instead of failing; the error "No offices with permission"
    is never raised, whatever the input. *)
Theorem has_resolves_without_permission :
  heldOffices sample_db (OfficerId 7) = [office_region]
  ∧ (¬ ∃ o, grantingOffice sample_db "org_create_venue" (OfficerId 7) o)
  ∧ has sample_db "org_create_venue" (OfficerId 7) = Ok []
  ∧ ∀ db permission officer,
      has db permission officer ≠ Fail (PlainError "No offices with permission").
Proof.
  split; [reflexivity | split; [|split; [reflexivity|]]].
  - intros (o & [Hin (roles & Hroles & Hperm)]). simpl in Hin.
    apply list_elem_of_singleton in Hin. subst o. simpl in Hroles.
    inversion Hroles; subst roles.
    apply list_elem_of_singleton in Hperm. discriminate.
  - intros db permission officer.
    destruct (has_cases db permission officer) as [Heq | [Heq _]];
      rewrite Heq; discriminate.
Qed.

(** ** [hasOverOffice]: when the recursion stops *)

Lemma filter_filter {A} (f : A → bool) (l : list A) :
  List.filter f (List.filter f l) = List.filter f l.
Proof.
  induction l as [|x l IH]; simpl; [done|].
  destruct (f x) eqn:Hfx; simpl; [rewrite Hfx|]; congruence.
Qed.

(** The offices [has] resolved with are handed to the recursive call as the
    officer; resolving them again changes nothing. *)
Lemma has_resolved_again db permission officer offices :
  has db permission officer = Ok offices →
  has db permission (OfficerOffices offices) = Ok offices.
Proof.
  intros Hhas.
  destruct (has_cases db permission officer) as [Heq | [Heq _]];
    rewrite Heq in Hhas; [|discriminate].
  inversion Hhas; subst offices.
  unfold has. simpl. by rewrite filter_filter.
Qed.

(** More fuel does not change an outcome. *)
Lemma hasOverOffice_fuel_mono fuel db office permission officer r :
  hasOverOffice fuel db office permission officer = Some r →
  hasOverOffice (S fuel) db office permission officer = Some r.
Proof.
  revert office officer.
  induction fuel as [|fuel IH]; intros office officer; [discriminate|].
  intros Hrun. simpl in Hrun. cbn [hasOverOffice].
  destruct (resolveOffice db office) as [o|e]; [|done].
  destruct (o_parentOfficeID o) as [p|]; [|done].
  destruct (has db permission officer) as [offices|e]; [|done].
  destruct (includes _ _); [done|].
  by apply IH.
Qed.

(** A granting office whose [parentID] is the current office ends the
    recursion with [true]. *)
Lemma hasOverOffice_match db office o p permission officer offices fuel :
  resolveOffice db office = Ok o →
  o_parentOfficeID o = Some p →
  has db permission officer = Ok offices →
  Some (o_id o) ∈ mapCollection offices o_parentID →
  hasOverOffice (S fuel) db office permission officer = Some (Ok true).
Proof.
  intros Hres Hpar Hhas Hin. cbn [hasOverOffice].
  rewrite Hres, Hpar, Hhas.
  apply includes_true in Hin. by rewrite Hin.
Qed.

(** On a chain that never ends, with no granting office matching any
    office of the chain, no amount of fuel is enough. *)
Lemma hasOverOffice_diverges db permission offices :
  ∀ fuel office officer,
    has db permission officer = Ok offices →
    (∀ n, ¬ chainEnds db office n) →
    (∀ o, onChain db office o →
          Some (o_id o) ∉ mapCollection offices o_parentID) →
    hasOverOffice fuel db office permission officer = None.
Proof.
  induction fuel as [|fuel IH]; intros office officer Hhas Hend Hnone;
    [reflexivity|].
  cbn [hasOverOffice].
  destruct (resolveOffice db office) as [o|e] eqn:Hres;
    [|exfalso; by eapply (Hend 0%nat), chain_missing].
  destruct (o_parentOfficeID o) as [p|] eqn:Hpar;
    [|exfalso; by eapply (Hend 0%nat), chain_top].
  rewrite Hhas.
  assert (Hfalse : includes (mapCollection offices o_parentID) (Some (o_id o))
                   = false).
  { apply includes_false, Hnone. by apply on_chain_here. }
  rewrite Hfalse. apply IH.
  - by eapply has_resolved_again.
  - intros n Hn. apply (Hend (S n)). by eapply chain_step.
  - intros o' Ho'. apply Hnone. by eapply on_chain_up.
Qed.

(** How a call on a chain that ends settles. *)
Lemma hasOverOffice_chain_outcome db office n :
  chainEnds db office n →
  ∀ permission officer,
    ∃ r, hasOverOffice (S n) db office permission officer = Some r
         ∧ (r = Ok true
            ∨ r = Fail (PlainError "Office not in chain")
            ∨ (∃ cause,
                  r = Fail (UserError "Office not found." 404 (Some cause)))
            ∨ (r = Fail (PlainError "User has no offices")
               ∧ ∃ e, has db permission officer = Fail e)).
Proof.
  induction 1 as [office e Hres | office o Hres Htop
                 | office o p n Hres Hpar Hrest IH];
    intros permission officer; cbn [hasOverOffice]; rewrite Hres.
  - eexists. split; [reflexivity|]. right. right. left.
    destruct office as [m|o]; [|discriminate].
    unfold resolveOffice, catch_throw in Hres.
    destruct (fetchOffice db m); [discriminate|].
    injection Hres as <-. eauto.
  - rewrite Htop. eexists. split; [reflexivity|]. auto.
  - rewrite Hpar.
    destruct (has db permission officer) as [offices|e] eqn:Hhas.
    + destruct (includes _ _); [eexists; split; [reflexivity | auto]|].
      destruct (IH permission (OfficerOffices offices))
        as (r & Hrun & [Hr | [Hr | [Hr | [_ [e He]]]]]);
        try (exists r; split; [exact Hrun | auto]).
      rewrite (has_resolved_again _ _ _ _ Hhas) in He. discriminate.
    + eexists. split; [reflexivity|]. right. right. right.
      destruct (has_cases db permission officer) as [Heq | [Heq _]];
        rewrite Heq in Hhas; [discriminate|].
      injection Hhas as <-. eauto.
Qed.

(** An officer without offices is refused as soon as the target office is
    found to have a parent office, on a chain that ends or not. *)
Lemma hasOverOffice_no_offices db office o p permission officer e fuel :
  resolveOffice db office = Ok o →
  o_parentOfficeID o = Some p →
  has db permission officer = Fail e →
  hasOverOffice (S fuel) db office permission officer
    = Some (Fail (PlainError "User has no offices")).
Proof.
  intros Hres Hpar Hhas. cbn [hasOverOffice]. rewrite Hres, Hpar.
  destruct (has_cases db permission officer) as [Heq | [Heq _]];
    rewrite Heq in Hhas; [discriminate|].
  by rewrite Heq.
Qed.

(** C3, as the code has it.  On a chain of parent offices that ends, at an
    office without a parent office or at an id without an office,
    [hasOverOffice] settles, whatever the depth allowed beyond the length of
    the chain, and with one of four outcomes: [true], "Office not in
    chain", the 404 "Office not found.", or "User has no offices" for an
    officer for whom [has] fails.  For a target that is found and has a
    parent office, it settles with [true] when [has] resolves and a granting
    office's [parentID] is that office, and with "User has no offices" when
    [has] fails for the officer, cycle or not.  There is no cycle guard: on
    a chain that never ends, for an officer for whom [has] resolves and
    whose granting offices match no office of the chain, the recursion goes
    on whatever the bound on its depth. *)
Theorem hasOverOffice_termination db office permission officer :
  (∀ n, chainEnds db office n →
        ∃ r, (∀ fuel, (n < fuel)%nat →
                hasOverOffice fuel db office permission officer = Some r)
             ∧ (r = Ok true
                ∨ r = Fail (PlainError "Office not in chain")
                ∨ (∃ cause,
                      r = Fail (UserError "Office not found." 404
                                  (Some cause)))
                ∨ (r = Fail (PlainError "User has no offices")
                   ∧ ∃ e, has db permission officer = Fail e)))
  ∧ (∀ o p offices fuel,
        resolveOffice db office = Ok o →
        o_parentOfficeID o = Some p →
        has db permission officer = Ok offices →
        Some (o_id o) ∈ mapCollection offices o_parentID →
        hasOverOffice (S fuel) db office permission officer = Some (Ok true))
  ∧ (∀ o p e fuel,
        resolveOffice db office = Ok o →
        o_parentOfficeID o = Some p →
        has db permission officer = Fail e →
        hasOverOffice (S fuel) db office permission officer
          = Some (Fail (PlainError "User has no offices")))
  ∧ (∀ offices,
        has db permission officer = Ok offices →
        (∀ n, ¬ chainEnds db office n) →
        (∀ o, onChain db office o →
              Some (o_id o) ∉ mapCollection offices o_parentID) →
        ∀ fuel, hasOverOffice fuel db office permission officer = None).
Proof.
  split; [|split; [|split]].
  - intros n Hend.
    destruct (hasOverOffice_chain_outcome db office n Hend permission
                officer) as (r & Hr & Hcases).
    exists r. split; [|exact Hcases]. intros fuel Hlt.
    replace fuel with ((fuel - S n) + S n)%nat by lia.
    induction (fuel - S n)%nat as [|k IHk]; [done|].
    by apply hasOverOffice_fuel_mono.
  - intros o p offices fuel. apply hasOverOffice_match.
  - intros o p e fuel. apply hasOverOffice_no_offices.
  - intros offices Hhas Hend Hnone fuel.
    by eapply hasOverOffice_diverges.
Qed.

(** *** The cycle A -> B -> A *)

Lemma cyclic_chain_never_ends n :
  ¬ chainEnds cyclic_db (OfficeId 1) n ∧ ¬ chainEnds cyclic_db (OfficeId 2) n.
Proof.
  induction n as [|n [IH1 IH2]].
  - split; intros Hend; inversion Hend as [? ? Hres | ? ? Hres Htop |];
      subst; vm_compute in Hres; try discriminate;
      inversion Hres; subst; discriminate.
  - split; intros Hend; inversion Hend as [| | ? ? ? ? Hres Hpar Hrest];
      subst; vm_compute in Hres; inversion Hres; subst;
      vm_compute in Hpar; inversion Hpar; subst; contradiction.
Qed.

Lemma cyclic_chain_offices office o :
  onChain cyclic_db office o →
  office = OfficeId 1 ∨ office = OfficeId 2 →
  o = office_A ∨ o = office_B.
Proof.
  induction 1 as [office o Hres | office o p o' Hres Hpar Hrest IH];
    intros [-> | ->]; vm_compute in Hres; inversion Hres; subst.
  - by left.
  - by right.
  - vm_compute in Hpar. inversion Hpar; subst. apply IH. by right.
  - vm_compute in Hpar. inversion Hpar; subst. apply IH. by left.
Qed.

Lemma cyclic_no_match o :
  onChain cyclic_db (OfficeId 1) o →
  Some (o_id o) ∉ mapCollection [office_G] o_parentID.
Proof.
  intros Hon Hin.
  apply cyclic_chain_offices in Hon as [-> | ->]; [| |by left];
    apply list_elem_of_singleton in Hin; discriminate.
Qed.

(** C3 as stated fails on the cycle: officer 7 holds a granting office that
    is the parent of neither A nor B, and the call on A never settles,
    with a cycle-detection error or otherwise. *)
Lemma hasOverOffice_cycle_counterexample :
  ¬ ∃ fuel r,
      hasOverOffice fuel cyclic_db (OfficeId 1) "office_update" (OfficerId 7)
        = Some r.
Proof.
  intros (fuel & r & Hrun).
  rewrite (hasOverOffice_diverges cyclic_db "office_update" [office_G])
    in Hrun; [discriminate | reflexivity | |].
  - intros n. apply cyclic_chain_never_ends.
  - apply cyclic_no_match.
Qed.

(** The chain A -> B -> C ends at C, which has no parent office: the call
    on A by officer 7 settles with "Office not in chain".  On the cycle the
    call by officer 7 never settles, and the call by officer 8, who holds no
    office, is refused at once. *)
Lemma hasOverOffice_termination_witness :
  (∀ fuel, (2 < fuel)%nat →
     hasOverOffice fuel chain_db (OfficeId 1) "office_update" (OfficerId 7)
       = Some (Fail (PlainError "Office not in chain")))
  ∧ (∀ fuel,
       hasOverOffice fuel cyclic_db (OfficeId 1) "office_update" (OfficerId 7)
         = None)
  ∧ (∀ fuel,
       hasOverOffice (S fuel) cyclic_db (OfficeId 1) "office_update"
         (OfficerId 8)
         = Some (Fail (PlainError "User has no offices"))).
Proof.
  split; [|split].
  - destruct (hasOverOffice_termination chain_db (OfficeId 1) "office_update"
                (OfficerId 7)) as [Hends _].
    destruct (Hends 2%nat) as (r & Hrun & _).
    { eapply chain_step; [reflexivity | reflexivity |].
      eapply chain_step; [reflexivity | reflexivity |].
      eapply chain_top; reflexivity. }
    intros fuel Hlt. rewrite (Hrun fuel Hlt).
    specialize (Hrun 3%nat (Nat.lt_succ_diag_r 2)). vm_compute in Hrun.
    by injection Hrun as <-.
  - apply (hasOverOffice_termination cyclic_db (OfficeId 1) "office_update"
             (OfficerId 7) ) with (offices := [office_G]).
    + reflexivity.
    + intros n. apply cyclic_chain_never_ends.
    + apply cyclic_no_match.
  - intros fuel.
    eapply (hasOverOffice_termination cyclic_db (OfficeId 1) "office_update"
              (OfficerId 8)); reflexivity.
Defined.

(** ** The search route *)

Lemma whereIf_elem (value : option string) (w : string → Where) x :
  x ∈ whereIf value w
  ↔ ∃ v, value = Some v ∧ truthy_string v = true ∧ x = w v.
Proof.
  unfold whereIf. destruct value as [v|].
  - destruct (truthy_string v) eqn:Hv.
    + rewrite list_elem_of_singleton. split.
      * intros ->. eauto.
      * intros (v' & Heq & _ & ->). congruence.
    + split; [intros Hin; by apply elem_of_nil in Hin|].
      intros (v' & Heq & Hv' & _). congruence.
  - split; [intros Hin; by apply elem_of_nil in Hin|].
    intros (v' & Heq & _). discriminate.
Qed.

Section SearchProperties.
Context `{T : TokenModel} `{J : Builtins} `{Q : OrgUnitQuery}.

Lemma toLowerCase_truthy s : truthy_string (toLowerCase s) = truthy_string s.
Proof.
  destruct (toLowerCase s) as [|c r] eqn:Hlow.
  - apply (proj1 (toLowerCase_empty s)) in Hlow. by subst s.
  - destruct s as [|c' r']; [|done].
    assert (Hnil : toLowerCase EmptyString = EmptyString)
      by by apply (proj2 (toLowerCase_empty EmptyString)).
    congruence.
Qed.

Lemma truthy_Some_nonempty s :
  s ≠ EmptyString → truthy (Some (toLowerCase s)) = true.
Proof. intros Hs. simpl. rewrite toLowerCase_truthy. by destruct s. Qed.

(** The lower-cased parameters, read off the query string. *)
Lemma mapValues_Ok (params : gmap string QueryValue) :
  stringParams params →
  mapValues_toLowerCase params
  = Ok (omap (fun v => toLowerCase <$> stringValue v) params).
Proof.
  intros Hall. unfold mapValues_toLowerCase.
  by rewrite bool_decide_eq_true_2.
Qed.

Lemma mapValues_Fail (params : gmap string QueryValue) :
  ¬ stringParams params →
  mapValues_toLowerCase params
  = Fail (TypeError "v.toLowerCase is not a function").
Proof.
  intros Hnot. unfold mapValues_toLowerCase.
  by rewrite bool_decide_eq_false_2.
Qed.

Lemma lowered_string (params : gmap string QueryValue) k s :
  params !! k = Some (QString s) →
  omap (fun v => toLowerCase <$> stringValue v) params !! k
  = Some (toLowerCase s).
Proof. intros Hk. by rewrite lookup_omap, Hk. Qed.

Lemma lowered_absent (params : gmap string QueryValue) k :
  params !! k = None →
  omap (fun v => toLowerCase <$> stringValue v) params !! k = None.
Proof. intros Hk. by rewrite lookup_omap, Hk. Qed.

Lemma lowered_inv (params : gmap string QueryValue) k t :
  omap (fun v => toLowerCase <$> stringValue v) params !! k = Some t →
  ∃ s, params !! k = Some (QString s) ∧ t = toLowerCase s.
Proof.
  rewrite lookup_omap. destruct (params !! k) as [[s| |]|]; try discriminate.
  intros [= <-]. eauto.
Qed.

Lemma params_nonempty (params : gmap string QueryValue) k v :
  params !! k = Some v → bool_decide (params = ∅) = false.
Proof.
  intros Hk. apply bool_decide_eq_false. intros ->.
  by rewrite lookup_empty in Hk.
Qed.

(** A parameter that is absent or empty is not truthy once lower-cased. *)
Lemma lowered_not_truthy (params : gmap string QueryValue) k :
  stringParams params →
  (∀ s, params !! k = Some (QString s) → s = EmptyString) →
  truthy (omap (fun v => toLowerCase <$> stringValue v) params !! k) = false.
Proof.
  intros Hall Hempty.
  destruct (omap _ params !! k) as [t|] eqn:Hk; [|done].
  apply lowered_inv in Hk as (s & Hs & ->).
  rewrite (Hempty s Hs). cbn [truthy]. by rewrite toLowerCase_truthy.
Qed.

(** C10, as the code has it.  The token check comes first, and a request
    it refuses is answered by it.  For a request it lets through: a
    parameter that is not a string raises a [TypeError]; and when every
    parameter is a string, a non-empty [venue] without a [type] (and without
    a non-empty [code]) sets the type condition to [venue]; a non-empty
    [venue] with a type other than venue is answered with a 400; a
    non-empty [code] in a search for venues, through a non-empty [venue] or
    through [type=venue], is answered with a 400; and an empty [venue]
    counts as not supplied: with a known type and no non-empty [code] the
    search is run on that type, without a venue-type condition. *)
Theorem search_venue_rules tokens db req (params : gmap string QueryValue) :
  (∀ msg status,
      validate None tokens req = NextError msg status →
      search_route tokens db req params = TokenRefused msg status)
  ∧ (∀ req' calls,
       validate None tokens req = Next req' calls →
       (params ≠ ∅ → ¬ stringParams params →
        search_route tokens db req params
        = Rejected (TypeError "v.toLowerCase is not a function"))
       ∧ (stringParams params →
          (∀ v, params !! "venue" = Some (QString v) → v ≠ EmptyString →
                params !! "type" = None →
                (∀ c, params !! "code" = Some (QString c) →
                      c = EmptyString) →
                ∃ conds,
                  search_route tokens db req params
                  = Searched conds (searchCatch (fetchAll db conds))
                  ∧ WhereEq "type" "venue" ∈ conds
                  ∧ WhereEq "venueType" (toLowerCase v) ∈ conds)
          ∧ (∀ v t, params !! "venue" = Some (QString v) →
                    v ≠ EmptyString →
                    params !! "type" = Some (QString t) →
                    toLowerCase t ≠ "venue" →
                    ∃ msg, search_route tokens db req params
                           = Rejected (UserError msg 400 None))
          ∧ (∀ c, params !! "code" = Some (QString c) → c ≠ EmptyString →
                  ((∃ v, params !! "venue" = Some (QString v)
                         ∧ v ≠ EmptyString)
                   ∨ (∃ t, params !! "type" = Some (QString t)
                           ∧ toLowerCase t = "venue")) →
                  ∃ msg, search_route tokens db req params
                         = Rejected (UserError msg 400 None))
          ∧ (∀ t, params !! "venue" = Some (QString EmptyString) →
                  params !! "type" = Some (QString t) →
                  toLowerCase t ∈ List.map toLowerCase getTypes →
                  t ≠ EmptyString →
                  (∀ c, params !! "code" = Some (QString c) →
                        c = EmptyString) →
                  ∃ conds,
                    search_route tokens db req params
                    = Searched conds (searchCatch (fetchAll db conds))
                    ∧ WhereEq "type" (toLowerCase t) ∈ conds
                    ∧ ∀ v, WhereEq "venueType" v ∉ conds))).
Proof.
  split.
  - intros msg status Hval. unfold search_route. by rewrite Hval.
  - intros req' calls Hval. split.
    + intros Hne Hnot. unfold search_route. rewrite Hval.
      rewrite bool_decide_eq_false_2 by done.
      by rewrite mapValues_Fail.
    + intros Hall. split; [|split; [|split]].
      * intros v Hvenue Hv Htype Hcode. unfold search_route. rewrite Hval.
        rewrite (params_nonempty params "venue" _ Hvenue).
        rewrite mapValues_Ok by done.
        pose proof (lowered_string params "venue" v Hvenue) as HPv.
        pose proof (lowered_absent params "type" Htype) as HPt.
        pose proof (lowered_not_truthy params "code" Hall Hcode) as HPc.
        set (P := omap _ params) in *.
        rewrite HPt, HPv. cbn [truthy andb].
        rewrite toLowerCase_truthy.
        assert (Htv : truthy_string v = true) by by destruct v.
        rewrite Htv. rewrite bool_decide_eq_true_2 by done. cbn [andb].
        rewrite (lookup_insert_ne P "type" "code") by done.
        rewrite (lookup_insert_ne P "type" "venue") by done.
        rewrite (lookup_insert_ne P "type" "name") by done.
        rewrite lookup_insert_eq.
        rewrite HPc, HPv. cbn [andb].
        eexists. split; [reflexivity|].
        split; rewrite !elem_of_app; right; right.
        -- left. cbn [whereIf truthy_string]. apply elem_of_cons. by left.
        -- right. cbn [whereIf]. rewrite toLowerCase_truthy, Htv.
           apply elem_of_cons. by left.
      * intros v t Hvenue Hv Htype Ht. unfold search_route. rewrite Hval.
        rewrite (params_nonempty params "venue" _ Hvenue).
        rewrite mapValues_Ok by done.
        pose proof (lowered_string params "venue" v Hvenue) as HPv.
        pose proof (lowered_string params "type" t Htype) as HPt.
        set (P := omap _ params) in *.
        destruct (truthy (P !! "type") && _); [eauto|].
        rewrite HPv, HPt, (truthy_Some_nonempty v Hv). cbn [andb].
        rewrite bool_decide_eq_false_2 by done.
        rewrite bool_decide_eq_false_2 by congruence. cbn [negb]. eauto.
      * intros c Hcode Hc Hvenue. unfold search_route. rewrite Hval.
        rewrite (params_nonempty params "code" _ Hcode).
        rewrite mapValues_Ok by done.
        pose proof (lowered_string params "code" c Hcode) as HPc.
        set (P := omap _ params) in *.
        destruct (truthy (P !! "type") && _); [eauto|].
        destruct Hvenue as [(v & Hvenue & Hv) | (t & Htype & Ht)].
        -- pose proof (lowered_string params "venue" v Hvenue) as HPv.
           fold P in HPv. rewrite HPv, (truthy_Some_nonempty v Hv).
           cbn [andb].
           destruct (bool_decide (P !! "type" = None)).
           ++ rewrite (lookup_insert_ne P "type" "code") by done.
              rewrite (lookup_insert_ne P "type" "venue") by done.
              rewrite HPc, HPv.
              rewrite (truthy_Some_nonempty c Hc), (truthy_Some_nonempty v Hv).
              cbn [andb orb]. eauto.
           ++ destruct (negb _); [eauto|].
              rewrite HPc, HPv.
              rewrite (truthy_Some_nonempty c Hc), (truthy_Some_nonempty v Hv).
              cbn [andb orb]. eauto.
        -- pose proof (lowered_string params "type" t Htype) as HPt.
           fold P in HPt. rewrite HPt, Ht.
           rewrite (bool_decide_eq_false_2 (Some "venue" = None)) by done.
           rewrite (bool_decide_eq_true_2 (Some "venue" = Some "venue"))
             by done.
           rewrite andb_false_r. cbn [negb]. rewrite andb_false_r.
           rewrite HPc, HPt, Ht, (truthy_Some_nonempty c Hc).
           rewrite (bool_decide_eq_true_2 (Some "venue" = Some "venue"))
             by done.
           rewrite orb_true_r. cbn [andb]. eauto.
      * intros t Hvenue Htype Hknown Ht Hcode. unfold search_route.
        rewrite Hval.
        rewrite (params_nonempty params "venue" _ Hvenue).
        rewrite mapValues_Ok by done.
        pose proof (lowered_string params "venue" _ Hvenue) as HPv.
        pose proof (lowered_string params "type" t Htype) as HPt.
        pose proof (lowered_not_truthy params "code" Hall Hcode) as HPc.
        set (P := omap _ params) in *.
        assert (HPvt : truthy (P !! "venue") = false).
        { rewrite HPv. cbn [truthy]. by rewrite toLowerCase_truthy. }
        assert (Htt : truthy_string t = true) by by destruct t.
        assert (Hidx : (indexOf (Some <$> List.map toLowerCase getTypes)
                          (Some (toLowerCase t)) =? -1)%Z = false).
        { rewrite indexOf_Some. apply Z.eqb_neq.
          apply includes_true in Hknown. unfold includes in Hknown.
          apply negb_true_iff in Hknown. by apply Z.eqb_neq in Hknown. }
        rewrite HPt, Hidx, andb_false_r, HPvt. cbn [andb].
        rewrite HPc, HPt. cbn [andb].
        eexists. split; [reflexivity|]. split.
        -- rewrite !elem_of_app. right. right. left.
           cbn [whereIf]. rewrite toLowerCase_truthy, Htt.
           apply elem_of_cons. by left.
        -- intros v. rewrite !elem_of_app, !whereIf_elem.
           intros [(w & _ & _ & [=]) | [(w & _ & _ & [=])
                  | [(w & _ & _ & [=]) | (w & Hw & Htw & _)]]].
           rewrite Hw in HPvt. cbn [truthy] in HPvt. congruence.
Qed.

End SearchProperties.

(** The sample parameters are strings. *)
Lemma sample_stringParams :
  stringParams query_venue ∧ stringParams query_venue_domain
  ∧ stringParams query_code_venue ∧ stringParams query_empty_venue
  ∧ ¬ stringParams query_repeated.
Proof.
  repeat split; apply (bool_decide_unpack _); vm_compute; exact I.
Qed.

Lemma search_venue_rules_witness :
  (∃ conds,
      search_route (T := sampleTokens) (J := asciiBuiltins) (Q := exactQuery)
        token_table sample_db req_abc query_venue
      = Searched conds (Ok [])
      ∧ WhereEq "type" "venue" ∈ conds
      ∧ WhereEq "venueType" "troupe" ∈ conds)
  ∧ (∃ msg,
       search_route (T := sampleTokens) (J := asciiBuiltins)
         (Q := exactQuery) token_table sample_db req_abc query_venue_domain
       = Rejected (UserError msg 400 None))
  ∧ (∃ msg,
       search_route (T := sampleTokens) (J := asciiBuiltins)
         (Q := exactQuery) token_table sample_db req_abc query_code_venue
       = Rejected (UserError msg 400 None))
  ∧ search_route (T := sampleTokens) (J := asciiBuiltins) (Q := exactQuery)
      token_table sample_db req_abc query_repeated
    = Rejected (TypeError "v.toLowerCase is not a function").
Proof.
  destruct sample_stringParams as (Hv & Hvd & Hcv & _ & Hrep).
  split; [|split; [|split]].
  - destruct (search_venue_rules (T := sampleTokens) (J := asciiBuiltins)
                (Q := exactQuery) token_table sample_db req_abc query_venue)
      as [_ Hpass].
    edestruct Hpass as [_ Hstr]; [vm_compute; reflexivity|].
    destruct (Hstr Hv) as (Hset & _).
    destruct (Hset "Troupe") as (conds & Hrun & Htype & Hvenue);
      [reflexivity | discriminate | reflexivity | discriminate |].
    exists conds. split; [|split; [exact Htype | exact Hvenue]].
    rewrite Hrun. vm_compute in Hrun. by injection Hrun as <-.
  - destruct (search_venue_rules (T := sampleTokens) (J := asciiBuiltins)
                (Q := exactQuery) token_table sample_db req_abc
                query_venue_domain) as [_ Hpass].
    edestruct Hpass as [_ Hstr]; [vm_compute; reflexivity|].
    destruct (Hstr Hvd) as (_ & Hother & _).
    apply (Hother "Troupe" "Domain");
      [reflexivity | discriminate | reflexivity | discriminate].
  - destruct (search_venue_rules (T := sampleTokens) (J := asciiBuiltins)
                (Q := exactQuery) token_table sample_db req_abc
                query_code_venue) as [_ Hpass].
    edestruct Hpass as [_ Hstr]; [vm_compute; reflexivity|].
    destruct (Hstr Hcv) as (_ & _ & Hcode & _).
    apply (Hcode "NY"); [reflexivity | discriminate |].
    right. exists "VENUE". split; reflexivity.
  - destruct (search_venue_rules (T := sampleTokens) (J := asciiBuiltins)
                (Q := exactQuery) token_table sample_db req_abc
                query_repeated) as [_ Hpass].
    edestruct Hpass as [Hraise _]; [vm_compute; reflexivity|].
    apply Hraise; [|exact Hrep].
    intros Hempty. apply (f_equal (fun m => m !! "name")) in Hempty.
    vm_compute in Hempty. discriminate.
Defined.

(** C10 as stated fails on an empty [venue]: the request
    [?venue=&type=domain] of the national officer supplies the venue
    parameter together with a type other than venue, and the search is run,
    on the type alone. *)
Lemma search_empty_venue_counterexample :
  query_empty_venue !! "venue" = Some (QString EmptyString)
  ∧ query_empty_venue !! "type" = Some (QString "domain")
  ∧ search_route (T := sampleTokens) (J := asciiBuiltins) (Q := exactQuery)
      token_table sample_db req_abc query_empty_venue
    = Searched [WhereEq "type" "domain"] (Ok []).
Proof. repeat split. Qed.



(** ** Strings and paths *)

Lemma append_cons (x : ascii) (a b : string) :
  String x a +:+ b = String x (a +:+ b).
Proof. reflexivity. Qed.

Lemma append_assoc (a b c : string) : (a +:+ b) +:+ c = a +:+ b +:+ c.
Proof.
  induction a as [|x a IH]; [done|]. by rewrite !append_cons, IH.
Qed.

(** Appending a segment to a dot-joined path. *)
Lemma concat_snoc (sep x : string) (l : list string) :
  l ≠ [] →
  String.concat sep (l ++ [x]) = String.concat sep l +:+ sep +:+ x.
Proof.
  induction l as [|y l IH]; [done|]. intros _.
  destruct l as [|z l]; [done|].
  change (String.concat sep ((y :: z :: l) ++ [x]))
    with (y +:+ sep +:+ String.concat sep ((z :: l) ++ [x])).
  rewrite IH by done.
  change (String.concat sep (y :: z :: l))
    with (y +:+ sep +:+ String.concat sep (z :: l)).
  by rewrite !append_assoc.
Qed.

(** ** Fetching and saving rows *)

Lemma fetchUnit_whereId db k unit :
  fetchUnit db (whereId (Some k)) = Ok unit →
  u_id unit = k ∧ unit ∈ org_units db.
Proof.
  unfold fetchUnit. destruct (List.find _ _) as [u|] eqn:Hfind; [|done].
  intros Heq. inversion Heq; subst u.
  apply find_some in Hfind as [Hin Hid]. unfold whereId in Hid.
  apply bool_decide_eq_true in Hid. rewrite list_elem_of_In.
  split; congruence.
Qed.

Lemma finalCatch_Ok {A} (r : result A) (a : A) :
  finalCatch r = Ok a → r = Ok a.
Proof. by destruct r. Qed.


(** Saving the row an insert has just appended replaces that row only. *)
Lemma saveUnit_inserted (t : DB) (inserted unit : OrgUnit) :
  existsb (fun u => (u_id u =? u_id inserted)%Z) (org_units t) = false →
  u_id unit = u_id inserted →
  saveUnit (withUnits t (org_units t ++ [inserted])%list) unit
    = withUnits t (org_units t ++ [unit])%list.
Proof.
  intros Hfresh Hid. unfold saveUnit, withUnits. simpl. f_equal.
  rewrite List.map_app. simpl. rewrite Hid, Z.eqb_refl. f_equal.
  induction (org_units t) as [|u rows IH]; [done|].
  simpl in Hfresh. apply orb_false_elim in Hfresh as [Hu Hrows].
  simpl. rewrite Hu. f_equal. by apply IH.
Qed.

Section RouteProperties.
Context `{M : OrgUnitModel} `{V : ValidationHelper} `{J : Builtins}.

(** ** The create route *)

(** The validation resolves with the attributes it was given. *)
Lemma validate_async_Ok data c attributes :
  validate_async data c = Ok attributes → attributes = data.
Proof.
  unfold validate_async.
  destruct (_ ++ _)%list; intros Heq; inversion Heq; done.
Qed.

(** What the transaction of the create route leaves behind. *)
Lemma createTransaction_Ok attributes t t' unit path :
  b_parentPath attributes = Some path →
  createTransaction attributes t = Ok (t', unit) →
  u_parentPath unit = path +:+ pretty (u_id unit)
  ∧ t' = withUnits t (org_units t ++ [unit])%list
  ∧ u_type unit = default EmptyString (b_type attributes).
Proof.
  intros Hpath. unfold createTransaction, insertUnit.
  destruct (existsb _ _) eqn:Hfresh; [discriminate|].
  cbn [bind]. rewrite Hpath. intros Heq. inversion Heq; subst t' unit.
  split; [reflexivity|]. split; [|reflexivity].
  by apply saveUnit_inserted.
Qed.

(** The two ways the create route ends: an error and an untouched
    database, or the unit the transaction wrote. *)
Lemma create_route_inv db data tokenUser db' r :
  create_route db data tokenUser = (db', r) →
  (db' = db ∧ ∃ e, r = Fail e)
  ∨ ∃ parent unit,
      fetchUnit db (whereId (b_parentID data)) = Ok parent
      ∧ b_type data ≠ Some "Venue"
      ∧ createTransaction
          (with_parentPath data (u_parentPath parent +:+ ".")) db
        = Ok (db', unit)
      ∧ r = Ok unit.
Proof.
  unfold create_route. intros Hrun.
  destruct (isEmpty data); [inversion Hrun; eauto|].
  destruct (negb _); [inversion Hrun; eauto|].
  destruct (_ || _); [inversion Hrun; eauto|].
  destruct (fetchUnit db (whereId (b_parentID data))) as [parent|e]
    eqn:Hparent; cbn [catch_throw bind] in Hrun;
    [|inversion Hrun; eauto].
  destruct (hasOverUnit _ _ _ _); cbn [bind] in Hrun;
    [|inversion Hrun; eauto].
  destruct (negb _); [inversion Hrun; eauto|].
  destruct (bool_decide (default EmptyString (b_type data) = "Venue"))
    eqn:Hvenue; [inversion Hrun; eauto|].
  apply bool_decide_eq_false in Hvenue.
  destruct (validate_async _ createConstraints) as [attributes|e] eqn:Hval;
    cbn [catch_throw] in Hrun; [|inversion Hrun; eauto].
  apply validate_async_Ok in Hval. subst attributes.
  unfold transaction in Hrun.
  destruct (createTransaction _ db) as [[t unit]|e] eqn:Htx;
    cbn [catch_throw finalCatch] in Hrun; inversion Hrun; subst; [|eauto].
  right. exists parent, unit. repeat split; try done.
  intros Htype. apply Hvenue. by rewrite Htype.
Qed.

(** C6.  When a create succeeds, the new unit's [parentPath] is the
    parent's [parentPath], a dot, and the new unit's id, so that the path of
    a parent that lists its ancestors' ids down to its own is continued by
    the new id; the row and its path are written by one transaction, which
    adds that one row to the table, and a create that fails writes nothing. *)
Theorem create_parentPath db data tokenUser :
  (∀ db' unit,
      create_route db data tokenUser = (db', Ok unit) →
      ∃ parent,
        fetchUnit db (whereId (b_parentID data)) = Ok parent
        ∧ u_parentPath unit
          = u_parentPath parent +:+ "." +:+ pretty (u_id unit)
        ∧ (∀ ids : list Z,
              ids ≠ [] →
              u_parentPath parent = String.concat "." (pretty <$> ids) →
              u_parentPath unit
              = String.concat "." (pretty <$> (ids ++ [u_id unit])%list))
        ∧ (∃ attributes,
              transaction db (createTransaction attributes) = (db', Ok unit))
        ∧ db' = withUnits db (org_units db ++ [unit])%list)
  ∧ (∀ db' e, create_route db data tokenUser = (db', Fail e) → db' = db).
Proof.
  split.
  - intros db' unit Hrun.
    apply create_route_inv in Hrun
      as [[_ [e He]] | (parent & unit' & Hparent & _ & Htx & Hunit)];
      [discriminate|].
    inversion Hunit; subst unit'. exists parent.
    destruct (createTransaction_Ok
                (with_parentPath data (u_parentPath parent +:+ ".")) db db'
                unit (u_parentPath parent +:+ ".") eq_refl Htx)
      as (Hpath & Hdb & _).
    rewrite append_assoc in Hpath.
    split; [done|]. split; [done|]. split; [|split; [|done]].
    + intros ids Hids Hchain.
      rewrite fmap_app.
      change (pretty <$> [u_id unit]) with [pretty (u_id unit)].
      rewrite concat_snoc; [|by destruct ids].
      by rewrite <- Hchain.
    + eexists. unfold transaction. by rewrite Htx.
  - intros db' e Hrun.
    apply create_route_inv in Hrun
      as [[Hdb _] | (parent & unit & _ & _ & _ & Hunit)];
      [done | discriminate].
Qed.

(** A Venue is never created: the branch that would require its
    [venueType] raises before the validation runs. *)
Lemma create_venue_never db data tokenUser db' unit :
  b_type data = Some "Venue" →
  create_route db data tokenUser ≠ (db', Ok unit).
Proof.
  intros Htype Hrun.
  apply create_route_inv in Hrun
    as [[_ [e He]] | (parent & unit' & _ & Hvenue & _)];
    [discriminate | contradiction].
Qed.

(** ** The update route *)

(** The test [NaN !== Number.parseInt( id )] always holds, so the unit is
    always looked up by id. *)
Lemma update_query_by_id id : update_query id = whereId (parseInt id).
Proof. reflexivity. Qed.

Lemma fetchUnit_NaN db : fetchUnit db (whereId NaN) = Fail NotFoundError.
Proof.
  unfold fetchUnit.
  destruct (List.find _ _) as [u|] eqn:Hfind; [|done].
  apply find_some in Hfind as [_ Hid]. unfold whereId in Hid.
  apply bool_decide_eq_true in Hid. discriminate.
Qed.

Lemma update_route_NaN db id body tokenUser :
  parseInt id = NaN →
  isEmpty body = false →
  update_route db id body tokenUser
    = (db, Fail (UserError "Org unit not found" 404 (Some NotFoundError))).
Proof.
  intros Hnan Hbody. unfold update_route.
  rewrite Hbody, update_query_by_id, Hnan, fetchUnit_NaN. reflexivity.
Qed.

(** ** The delete route *)



Lemma destroyUnit_spec t unit u :
  u ∈ org_units (destroyUnit t unit)
  ↔ u ∈ org_units t ∧ u_id u ≠ u_id unit.
Proof.
  unfold destroyUnit. simpl. rewrite !list_elem_of_In, filter_In.
  rewrite negb_true_iff, Z.eqb_neq. tauto.
Qed.



(** A patch that resolves has changed the users only. *)
Lemma patchUsers_frame t id parent t' :
  patchUsers t id parent = Ok t' →
  org_units t' = org_units t ∧ offices t' = offices t.
Proof.
  unfold patchUsers. destruct (existsb _ _); [|discriminate].
  by intros [= <-].
Qed.






End RouteProperties.


(** ** The routes on the sample data *)

(** A Domain created under Region 2 gets the id 4 and the path 1.2.4. *)
Lemma create_parentPath_witness :
  ∃ parent,
    fetchUnit sample_db (whereId (Some 2)) = Ok parent
    ∧ u_parentPath domain4 = u_parentPath parent +:+ "." +:+ pretty (4 : Z)
    ∧ (u_parentPath parent = String.concat "." (pretty <$> [1; 2]) →
       u_parentPath domain4 = String.concat "." (pretty <$> [1; 2; 4])).
Proof.
  destruct (create_parentPath (M := pathModel) (V := prefixHelper)
        (J := asciiBuiltins)
              sample_db body_domain 5) as [Hok _].
  destruct (Hok (withUnits sample_db (sample_units ++ [domain4])%list) domain4)
    as (parent & Hparent & Hpath & Hchain & _ & _).
  { vm_compute. reflexivity. }
  exists parent. split; [exact Hparent|]. split; [exact Hpath|].
  intros Hids. apply (Hchain [1; 2]); [discriminate | exact Hids].
Defined.

(** C7 on the code.  A request for a Venue is never answered with a unit:
    the statement that would make [venueType] required names an undeclared
    identifier, so a well-formed Venue is answered with a 403 that wraps a
    [ReferenceError].  And a request whose attributes are invalid, here a
    Region with an empty name, is not answered with the 400 of the
    validation but with a 500 that wraps it. *)
Theorem create_validation_outcomes :
  (∀ (M : OrgUnitModel) (V : ValidationHelper) (J : Builtins)
      db data tokenUser db' unit,
      b_type data = Some "Venue" →
      create_route db data tokenUser ≠ (db', Ok unit))
  ∧ create_route (M := pathModel) (V := prefixHelper)
        (J := asciiBuiltins) sample_db body_venue 5
    = (sample_db,
       Fail (UserError "Authentication failed" 403
               (Some (ReferenceError "contraints"))))
  ∧ create_route (M := pathModel) (V := prefixHelper)
        (J := asciiBuiltins) sample_db
      body_region_unnamed 5
    = (sample_db,
       Fail (UserError "There was an error creating the org unit" 500
               (Some (UserError "Invalid data provided: name" 400 None)))).
Proof.
  split; [|split].
  - intros M V J db data tokenUser db' unit. apply create_venue_never.
  - vm_compute. reflexivity.
  - vm_compute. reflexivity.
Qed.

(** C8 on the code.  The update route looks the unit up by the integer its
    argument parses to, whatever the argument: a code parses to [NaN], no
    row has that id, and the update addressed by the code of Domain 3 is
    answered with "Org unit not found" although a unit carries that code. *)
Theorem update_by_code_not_found :
  (∀ (J : Builtins) id, update_query id = whereId (parseInt id))
  ∧ (∀ (M : OrgUnitModel) (V : ValidationHelper) (J : Builtins)
       db id body tokenUser,
       parseInt id = NaN → isEmpty body = false →
       update_route db id body tokenUser
       = (db, Fail (UserError "Org unit not found" 404 (Some NotFoundError))))
  ∧ (∀ J : Builtins, parseInt "NY" = NaN)
  ∧ fetchUnit sample_db (whereCode "NY") = Ok domain3
  ∧ update_route (M := pathModel) (V := prefixHelper)
        (J := asciiBuiltins) sample_db "NY"
      body_rename 5
    = (sample_db,
       Fail (UserError "Org unit not found" 404 (Some NotFoundError))).
Proof.
  split; [|split; [|split; [|split]]].
  - intros J. apply update_query_by_id.
  - intros M V J db id body tokenUser. apply update_route_NaN.
  - intros J. by rewrite parseInt_ascii_text.
  - reflexivity.
  - vm_compute. reflexivity.
Qed.





(** * Further properties of the permission resolver *)

Lemma granting_elem_of_has db permission officer offices g :
  has db permission officer = Ok offices →
  g ∈ offices ↔ grantingOffice db permission officer g.
Proof.
  intros Hhas.
  destruct (has_cases db permission officer) as [Heq | [Heq _]];
    rewrite Heq in Hhas; [|discriminate].
  inversion Hhas; subst offices. unfold grantingOffice.
  rewrite list_elem_of_In, filter_In, <- list_elem_of_In, grants_true.
  tauto.
Qed.

Lemma granting_has_Ok db permission officer g :
  grantingOffice db permission officer g →
  ∃ offices, has db permission officer = Ok offices.
Proof.
  intros [Hin _].
  destruct (has_cases db permission officer) as [Heq | [_ Hheld]]; [eauto|].
  rewrite Hheld in Hin. by apply elem_of_nil in Hin.
Qed.

Lemma granting_resolved db permission officer offices g :
  has db permission officer = Ok offices →
  grantingOffice db permission (OfficerOffices offices) g
  ↔ grantingOffice db permission officer g.
Proof.
  intros Hhas. rewrite <- (granting_elem_of_has _ _ _ _ g Hhas).
  split.
  - by intros [Hin _].
  - intros Hin. split; [done|].
    by apply (granting_elem_of_has _ _ _ _ g Hhas) in Hin as [_ Hroles].
Qed.

Lemma hasOverOffice_grant_found db permission office o :
  onChain db office o →
  ∀ officer g,
    is_Some (o_parentOfficeID o) →
    grantingOffice db permission officer g →
    o_parentID g = Some (o_id o) →
    ∃ fuel,
      hasOverOffice fuel db office permission officer = Some (Ok true).
Proof.
  induction 1 as [office o Hres | office o0 p o Hres Hpar Hrest IH];
    intros officer g Hparent Hg Hmatch;
    destruct (granting_has_Ok _ _ _ _ Hg) as [offices Hhas].
  - destruct Hparent as [p Hp]. exists 1%nat.
    eapply hasOverOffice_match; [done..|].
    unfold mapCollection. rewrite list_elem_of_In, in_map_iff.
    exists g. split; [done|]. rewrite <- list_elem_of_In.
    by apply (granting_elem_of_has _ _ _ _ g Hhas).
  - destruct (includes (mapCollection offices o_parentID) (Some (o_id o0)))
      eqn:Hinc.
    + exists 1%nat. apply includes_true in Hinc.
      by eapply hasOverOffice_match.
    + destruct (IH (OfficerOffices offices) g Hparent) as [fuel Hrun];
        [by apply (granting_resolved _ _ _ _ g Hhas) | done |].
      exists (S fuel). cbn [hasOverOffice].
      by rewrite Hres, Hpar, Hhas, Hinc.
Qed.

Lemma hasOverOffice_grant_source db permission fuel :
  ∀ office officer,
    hasOverOffice fuel db office permission officer = Some (Ok true) →
    ∃ o g, onChain db office o
           ∧ is_Some (o_parentOfficeID o)
           ∧ grantingOffice db permission officer g
           ∧ o_parentID g = Some (o_id o).
Proof.
  induction fuel as [|fuel IH]; intros office officer Hrun; [discriminate|].
  cbn [hasOverOffice] in Hrun.
  destruct (resolveOffice db office) as [o|e] eqn:Hres; [|discriminate].
  destruct (o_parentOfficeID o) as [p|] eqn:Hpar; [|discriminate].
  destruct (has db permission officer) as [offices|e] eqn:Hhas;
    [|discriminate].
  destruct (includes _ _) eqn:Hinc.
  - apply includes_true in Hinc. unfold mapCollection in Hinc.
    rewrite list_elem_of_In, in_map_iff in Hinc.
    destruct Hinc as (g & Hmatch & Hin). exists o, g.
    split; [by apply on_chain_here|]. split; [by rewrite Hpar|].
    split; [|done].
    apply (granting_elem_of_has _ _ _ _ g Hhas). by apply list_elem_of_In.
  - apply IH in Hrun as (o' & g & Hon & Hparent & Hg & Hmatch).
    exists o', g. split; [by eapply on_chain_up|]. split; [done|].
    split; [|done]. by apply (granting_resolved _ _ _ _ g Hhas).
Qed.

(** X1.  [hasOverOffice] grants exactly when some office held by the officer
    carries the permission and has as its [parentID] the target office or
    one of the offices above it, that office having a parent office itself.
    The top of a chain, an office without [parentOfficeID], is rejected as
    "not in chain" before any match is looked for. *)
Theorem hasOverOffice_grants_iff db office permission officer :
  (∃ fuel, hasOverOffice fuel db office permission officer = Some (Ok true))
  ↔ ∃ o g, onChain db office o
           ∧ is_Some (o_parentOfficeID o)
           ∧ grantingOffice db permission officer g
           ∧ o_parentID g = Some (o_id o).
Proof.
  split.
  - intros [fuel Hrun]. by eapply hasOverOffice_grant_source.
  - intros (o & g & Hon & Hparent & Hg & Hmatch).
    by eapply hasOverOffice_grant_found.
Qed.

Lemma chainLoop_never_false parents officeOrgs :
  chainLoop parents officeOrgs ≠ Ok false.
Proof.
  destruct (chainLoop_cases parents officeOrgs) as [[Heq _] | [Heq _]];
    rewrite Heq; discriminate.
Qed.

(** X2.  None of the three checks ever resolves with [false]: a permission
    that is not granted is always a rejection, so a caller that only waits
    for the promise, as the routes do, has the permission when it goes on. *)
Theorem hasOver_never_false :
  (∀ (M : OrgUnitModel) db unit permission officer,
      hasOverUnit db unit permission officer ≠ Ok false)
  ∧ (∀ (M : OrgUnitModel) db user permission officer,
      hasOverUser db user permission officer ≠ Ok false)
  ∧ (∀ fuel db office permission officer,
      hasOverOffice fuel db office permission officer ≠ Some (Ok false)).
Proof.
  split; [|split].
  - intros M db unit permission officer. unfold hasOverUnit.
    destruct (has db permission officer) as [offices|e]; [|discriminate].
    cbn [bind]. destruct (resolveUnit db unit) as [u|e]; [|discriminate].
    cbn [bind]. repeat (destruct (includes _ _); [discriminate|]).
    apply chainLoop_never_false.
  - intros M db user permission officer. unfold hasOverUser.
    destruct (has db permission officer) as [offices|e]; [|discriminate].
    cbn [bind]. destruct (usr_orgUnit _).
    + destruct (includes _ _); [discriminate|]. apply chainLoop_never_false.
    + destruct (includes _ _); discriminate.
  - induction fuel as [|fuel IH]; intros db office permission officer;
      [discriminate|].
    cbn [hasOverOffice].
    destruct (resolveOffice db office) as [o|e]; [|discriminate].
    destruct (o_parentOfficeID o); [|discriminate].
    destruct (has db permission officer); [|discriminate].
    destruct (includes _ _); [discriminate | apply IH].
Qed.

(** X3.  [has] resolves with the offices of the officer that carry the
    permission, each of them once for each time it is held, and nothing
    else; handing the result back as the officer, as [hasOverOffice] does
    on each recursive call, resolves with the same offices again. *)
Theorem has_resolves_granting db permission officer offices :
  has db permission officer = Ok offices →
  (∀ g, g ∈ offices ↔ grantingOffice db permission officer g)
  ∧ offices = List.filter (grants permission) (heldOffices db officer)
  ∧ has db permission (OfficerOffices offices) = Ok offices.
Proof.
  intros Hhas. split; [|split].
  - intros g. by apply granting_elem_of_has.
  - destruct (has_cases db permission officer) as [Heq | [Heq _]];
      rewrite Heq in Hhas; [by inversion Hhas | discriminate].
  - by eapply has_resolved_again.
Qed.

Lemma has_resolves_granting_witness :
  has sample_db "org_update" (OfficerOffices [office_region])
    = Ok [office_region]
  ∧ grantingOffice sample_db "org_update" (OfficerId 7) office_region.
Proof.
  destruct (has_resolves_granting sample_db "org_update" (OfficerId 7)
              [office_region] eq_refl) as (Hin & _ & Hagain).
  split; [exact Hagain|]. apply Hin, list_elem_of_singleton. reflexivity.
Defined.

Section ResolverMonotone.
Context `{M : OrgUnitModel}.

Lemma granting_more db permission (held held' : list Office) g :
  held ⊆ held' →
  grantingOffice db permission (OfficerOffices held) g →
  grantingOffice db permission (OfficerOffices held') g.
Proof.
  intros Hsub [Hin Hroles]. split; [|done]. simpl in *. by apply Hsub.
Qed.

(** A user without a unit: the permission is held through an office whose
    domain is the root unit. *)
Lemma hasOverUser_national db user permission held :
  usr_orgUnit (um_user user) = None →
  hasOverUser db user permission (OfficerOffices held) = Ok true
  ↔ ∃ o, grantingOffice db permission (OfficerOffices held) o
         ∧ o_parentOrgID o = Some 1.
Proof.
  intros Hnone. unfold hasOverUser.
  rewrite (has_Ok db permission (OfficerOffices held) held eq_refl), Hnone.
  cbn [bind].
  destruct (includes _ (Some 1)) eqn:Hinc.
  - split; [intros _|done]. apply includes_true in Hinc.
    unfold mapCollection in Hinc.
    apply list_elem_of_In, in_map_iff in Hinc as (o & Ho & Hin).
    apply filter_In in Hin as [Hin Hgr]. exists o. split; [|done].
    split; [by apply list_elem_of_In|]. by apply grants_true.
  - split; [discriminate|]. intros (o & [Hin Hroles] & Ho).
    apply includes_false in Hinc. exfalso. apply Hinc.
    unfold mapCollection. apply list_elem_of_In, in_map_iff.
    exists o. split; [done|]. apply filter_In.
    split; [by apply list_elem_of_In | by apply grants_true].
Qed.

Lemma hasOverUnit_collection db unit permission held target :
  resolveUnit db unit = Ok target →
  hasOverUnit db unit permission (OfficerOffices held) = Ok true
  ↔ ∃ o, grantingOffice db permission (OfficerOffices held) o
         ∧ coversUnit db target o.
Proof.
  intros Hunit.
  rewrite (hasOverUnit_resolved db unit permission (OfficerOffices held)
             held target eq_refl Hunit).
  destruct (unit_tests_cases db permission (OfficerOffices held) target)
    as [[Heq Hex] | [Heq Hno]]; simpl in Heq; simpl; rewrite Heq.
  - split; auto.
  - split; [discriminate | intros Hex; contradiction].
Qed.

Lemma hasOverUser_collection db user permission held orgUnit :
  usr_orgUnit (um_user user) = Some orgUnit →
  hasOverUser db user permission (OfficerOffices held) = Ok true
  ↔ ∃ o, grantingOffice db permission (OfficerOffices held) o
         ∧ coversUser db user orgUnit o.
Proof.
  intros Hsome. unfold hasOverUser.
  rewrite (has_Ok db permission (OfficerOffices held) held eq_refl), Hsome.
  cbn [bind].
  destruct (user_tests_cases db permission (OfficerOffices held) user orgUnit)
    as [[Heq Hex] | [Heq Hno]]; simpl in Heq; rewrite Heq.
  - split; auto.
  - split; [discriminate | intros Hex; contradiction].
Qed.

(** X4.  Further offices never take a permission away: when a collection
    of offices has a permission over a unit or over a user, so has every
    collection that contains these offices, in whatever order and with
    whatever other offices. *)
Theorem hasOver_more_offices db permission (held held' : list Office) :
  held ⊆ held' →
  (∀ unit,
      hasOverUnit db unit permission (OfficerOffices held) = Ok true →
      hasOverUnit db unit permission (OfficerOffices held') = Ok true)
  ∧ (∀ user,
      hasOverUser db user permission (OfficerOffices held) = Ok true →
      hasOverUser db user permission (OfficerOffices held') = Ok true).
Proof.
  intros Hsub. split.
  - intros unit Hrun.
    destruct (resolveUnit db unit) as [target|e] eqn:Hunit.
    + destruct (proj1 (hasOverUnit_collection _ _ _ _ _ Hunit) Hrun)
        as (o & Hg & Hcov).
      apply (hasOverUnit_collection _ _ _ _ _ Hunit).
      exists o. split; [by eapply granting_more | done].
    + unfold hasOverUnit in Hrun.
      rewrite (has_Ok db permission (OfficerOffices held) held eq_refl)
        in Hrun.
      cbn [bind] in Hrun. rewrite Hunit in Hrun. discriminate.
  - intros user Hrun.
    destruct (usr_orgUnit (um_user user)) as [orgUnit|] eqn:Hsome.
    + destruct (proj1 (hasOverUser_collection _ _ _ _ _ Hsome) Hrun)
        as (o & Hg & Hcov).
      apply (hasOverUser_collection _ _ _ _ _ Hsome).
      exists o. split; [by eapply granting_more | done].
    + destruct (proj1 (hasOverUser_national _ _ _ _ Hsome) Hrun)
        as (o & Hg & Hroot).
      apply (hasOverUser_national _ _ _ _ Hsome).
      exists o. split; [by eapply granting_more | done].
Qed.

End ResolverMonotone.

(** The regional office alone has [org_update] over Domain 3 and over user
    20, and so has it after the national office, held before it. *)
Lemma hasOver_more_offices_witness :
  hasOverUnit (M := pathModel) sample_db (UnitId 3) "org_update"
    (OfficerOffices [office_national; office_region]) = Ok true
  ∧ hasOverUser (M := pathModel) sample_db user20 "org_update"
      (OfficerOffices [office_national; office_region]) = Ok true.
Proof.
  destruct (hasOver_more_offices (M := pathModel) sample_db "org_update"
              [office_region] [office_national; office_region])
    as [Hunit Huser].
  { intros o Hin. apply list_elem_of_singleton in Hin as ->.
    apply elem_of_cons. right. apply elem_of_cons. by left. }
  split.
  - apply (Hunit (UnitId 3)). reflexivity.
  - apply (Huser user20). reflexivity.
Defined.

(** * Further properties of the routes *)

(** The rank of each type name in [getTypes]. *)
Lemma getTypes_index (type : string) :
  (type = "Nation" ∧ indexOf getTypes type = 0)
  ∨ (type = "Region" ∧ indexOf getTypes type = 1)
  ∨ (type = "Domain" ∧ indexOf getTypes type = 2)
  ∨ (type = "Venue" ∧ indexOf getTypes type = 3)
  ∨ indexOf getTypes type = (-1)%Z.
Proof.
  unfold getTypes. cbn [indexOf].
  destruct (decide ("Nation" = type)) as [<- | _]; [by left|].
  destruct (decide ("Region" = type)) as [<- | _]; [right; by left|].
  destruct (decide ("Domain" = type)) as [<- | _]; [right; right; by left|].
  destruct (decide ("Venue" = type)) as [<- | _];
    [right; right; right; by left|].
  right; right; right; by right.
Qed.

Section RouteFurther.
Context `{M : OrgUnitModel} `{V : ValidationHelper} `{J : Builtins}.

Lemma hasOverUnit_Ok db unit permission officer granted :
  hasOverUnit db unit permission officer = Ok granted → granted = true.
Proof.
  unfold hasOverUnit.
  destruct (has db permission officer) as [offices|e]; [|discriminate].
  cbn [bind]. destruct (resolveUnit db unit) as [u|e]; [|discriminate].
  cbn [bind]. repeat (destruct (includes _ _); [by inversion 1|]).
  destruct (chainLoop_cases (getParents db u)
              (mapCollection offices o_parentOrgID)) as [[Heq _] | [Heq _]];
    rewrite Heq; by inversion 1.
Qed.

(** What a create that succeeds has passed. *)
Lemma create_route_passed db data tokenUser db' unit :
  create_route db data tokenUser = (db', Ok unit) →
  ∃ parent type,
    b_type data = Some type
    ∧ fetchUnit db (whereId (b_parentID data)) = Ok parent
    ∧ hasOverUnit db (UnitModel parent)
        ("org_create_" +:+ toLowerCase type) (OfficerId tokenUser) = Ok true
    ∧ indexOf getTypes type - 1 = indexOf getTypes (u_type parent)
    ∧ indexOf getTypes type ≠ (-1)%Z
    ∧ type ≠ "Nation" ∧ type ≠ "Venue"
    ∧ u_type unit = type.
Proof.
  unfold create_route. intros Hrun.
  destruct (isEmpty data); [discriminate|].
  destruct (negb _); [discriminate|].
  destruct (b_type data) as [type|] eqn:Htype;
    [|rewrite indexOf_None in Hrun; discriminate].
  rewrite indexOf_Some in Hrun.
  change (default EmptyString (Some type)) with type in Hrun.
  destruct (indexOf getTypes type =? -1)%Z eqn:Hknown; [discriminate|].
  apply Z.eqb_neq in Hknown.
  destruct (bool_decide (Some type = Some "Nation")) eqn:Hnation;
    [discriminate|].
  apply bool_decide_eq_false in Hnation. cbn [orb] in Hrun.
  destruct (fetchUnit db (whereId (b_parentID data))) as [parent|e]
    eqn:Hparent; cbn [catch_throw bind] in Hrun; [|discriminate].
  destruct (hasOverUnit _ _ _ _) as [granted|e] eqn:Hperm;
    cbn [bind] in Hrun; [|discriminate].
  apply hasOverUnit_Ok in Hperm as Hgranted. subst granted.
  destruct (negb _) eqn:Hrank; [discriminate|].
  apply negb_false_iff, Z.eqb_eq in Hrank.
  destruct (bool_decide (type = "Venue")) eqn:Hvenue; [discriminate|].
  apply bool_decide_eq_false in Hvenue.
  destruct (validate_async _ createConstraints) as [attributes|e] eqn:Hval;
    cbn [catch_throw] in Hrun; [|discriminate].
  apply validate_async_Ok in Hval. subst attributes.
  unfold transaction in Hrun.
  destruct (createTransaction _ db) as [[t unit']|e] eqn:Htx;
    cbn [catch_throw finalCatch] in Hrun; inversion Hrun; subst.
  destruct (createTransaction_Ok
              (with_parentPath data (u_parentPath parent +:+ ".")) db db'
              unit (u_parentPath parent +:+ ".") eq_refl Htx)
    as (_ & _ & Hutype).
  cbn [with_parentPath b_type] in Hutype. rewrite Htype in Hutype.
  exists parent, type. repeat split; try done. congruence.
Qed.

(** X5.  A create that succeeds was authorized and keeps the ranks
    adjacent: the officer has [org_create_<type>] over the parent, and the
    new unit is a Region under a Nation or a Domain under a Region.  No
    Nation and no Venue is ever created. *)
Theorem create_authorized_adjacent db data tokenUser db' unit :
  create_route db data tokenUser = (db', Ok unit) →
  ∃ parent,
    fetchUnit db (whereId (b_parentID data)) = Ok parent
    ∧ hasOverUnit db (UnitModel parent)
        ("org_create_" +:+ toLowerCase (u_type unit)) (OfficerId tokenUser)
      = Ok true
    ∧ ((u_type unit = "Region" ∧ u_type parent = "Nation")
       ∨ (u_type unit = "Domain" ∧ u_type parent = "Region")).
Proof.
  intros Hrun.
  apply create_route_passed in Hrun
    as (parent & type & _ & Hparent & Hperm & Hrank & Hknown & Hnation
        & Hvenue & Hutype).
  subst type. exists parent. split; [done|]. split; [done|].
  destruct (getTypes_index (u_type unit))
    as [[Ht _] | [[Ht Hi] | [[Ht Hi] | [[Ht _] | Hi]]]]; try done.
  - left. split; [done|]. rewrite Hi in Hrank.
    destruct (getTypes_index (u_type parent))
      as [[Hp _] | [[_ Hj] | [[_ Hj] | [[_ Hj] | Hj]]]]; [done|lia..].
  - right. split; [done|]. rewrite Hi in Hrank.
    destruct (getTypes_index (u_type parent))
      as [[_ Hj] | [[Hp _] | [[_ Hj] | [[_ Hj] | Hj]]]]; [lia|done|lia..].
Qed.

(** X6.  The checks of the create route, in the order they reject: a body
    without a parent id (or with the id 0) and a body whose type is absent,
    unknown or Nation are answered 400 before the database is read; then a
    parent that is not found is a 400, a missing permission over the parent
    a 403 that wraps the resolver's error, and only then a type that is not
    one rank below the parent's a 400.  None of them writes. *)
Theorem create_rejections db data tokenUser :
  isEmpty data = false →
  (from_option truthy_int false (b_parentID data) = false →
   create_route db data tokenUser
     = (db, Fail (UserError "No parent provided" 400 None)))
  ∧ (from_option truthy_int false (b_parentID data) = true →
     (∀ type, b_type data = Some type →
              type ≠ "Region" ∧ type ≠ "Domain" ∧ type ≠ "Venue") →
     create_route db data tokenUser
       = (db, Fail (UserError "Invalid org unit type" 400 None)))
  ∧ (∀ type,
       from_option truthy_int false (b_parentID data) = true →
       b_type data = Some type →
       type = "Region" ∨ type = "Domain" ∨ type = "Venue" →
       (fetchUnit db (whereId (b_parentID data)) = Fail NotFoundError →
        create_route db data tokenUser
          = (db, Fail (UserError "Parent not found" 400 None)))
       ∧ (∀ parent e,
            fetchUnit db (whereId (b_parentID data)) = Ok parent →
            hasOverUnit db (UnitModel parent)
              ("org_create_" +:+ toLowerCase type) (OfficerId tokenUser)
              = Fail e →
            instanceof_UserError e = false →
            create_route db data tokenUser
              = (db, Fail (UserError "Authentication failed" 403 (Some e))))
       ∧ (∀ parent,
            fetchUnit db (whereId (b_parentID data)) = Ok parent →
            hasOverUnit db (UnitModel parent)
              ("org_create_" +:+ toLowerCase type) (OfficerId tokenUser)
              = Ok true →
            indexOf getTypes type - 1 ≠ indexOf getTypes (u_type parent) →
            create_route db data tokenUser
              = (db, Fail (UserError "Org type doesn't match expected type"
                             400 None)))).
Proof.
  intros Hdata. split; [|split].
  - intros Hparent. unfold create_route. by rewrite Hdata, Hparent.
  - intros Hparent Htype. unfold create_route. rewrite Hdata, Hparent.
    cbn [negb]. destruct (b_type data) as [type|];
      [|by rewrite indexOf_None].
    rewrite indexOf_Some.
    destruct (Htype type eq_refl) as (Hr & Hd & Hv).
    destruct (getTypes_index type)
      as [[-> Hi] | [[Ht _] | [[Ht _] | [[Ht _] | Hi]]]]; try done.
    by rewrite Hi.
  - intros type Hparent Htype Hvalid. unfold create_route.
    rewrite Hdata, Hparent, Htype, indexOf_Some. cbn [negb].
    change (default EmptyString (Some type)) with type.
    assert (Hknown : (indexOf getTypes type =? -1)%Z = false).
    { by destruct Hvalid as [-> | [-> | ->]]. }
    assert (Hnation : bool_decide (Some type = Some "Nation") = false).
    { by destruct Hvalid as [-> | [-> | ->]]. }
    rewrite Hknown, Hnation. cbn [orb].
    split; [|split].
    + intros Hmiss. by rewrite Hmiss.
    + intros parent e Hfound Hperm He. rewrite Hfound. cbn [catch_throw bind].
      rewrite Hperm. cbn [bind finalCatch catch_throw]. by rewrite He.
    + intros parent Hfound Hperm Hrank. rewrite Hfound.
      cbn [catch_throw bind]. rewrite Hperm. cbn [bind].
      apply Z.eqb_neq in Hrank. by rewrite Hrank.
Qed.

End RouteFurther.

(** The Domain created under Region 2 by the national officer. *)
Lemma create_authorized_adjacent_witness :
  ∃ parent,
    fetchUnit sample_db (whereId (Some 2)) = Ok parent
    ∧ u_type domain4 = "Domain" ∧ u_type parent = "Region".
Proof.
  destruct (create_authorized_adjacent (M := pathModel) (V := prefixHelper)
        (J := asciiBuiltins)
              sample_db body_domain 5
              (withUnits sample_db (sample_units ++ [domain4])%list) domain4)
    as (parent & Hparent & _ & [[Hu _] | [Hu Hp]]).
  - vm_compute. reflexivity.
  - discriminate Hu.
  - exists parent. split; [exact Hparent|]. split; [exact Hu | exact Hp].
Defined.

(** A Venue directly under a Region is refused with a 400 when the officer
    has the permission, and with a 403 when the officer has not. *)
Lemma create_rejections_witness :
  create_route (M := pathModel) (V := prefixHelper)
        (J := asciiBuiltins) sample_db
    body_venue_region 5
  = (sample_db,
     Fail (UserError "Org type doesn't match expected type" 400 None))
  ∧ create_route (M := pathModel) (V := prefixHelper)
        (J := asciiBuiltins) sample_db
      body_venue_region 7
    = (sample_db,
       Fail (UserError "Authentication failed" 403
               (Some (PlainError "Officer not found in chain")))).
Proof.
  destruct (create_rejections (M := pathModel) (V := prefixHelper)
        (J := asciiBuiltins) sample_db
              body_venue_region 5 eq_refl) as (_ & _ & Hfive).
  destruct (create_rejections (M := pathModel) (V := prefixHelper)
        (J := asciiBuiltins) sample_db
              body_venue_region 7 eq_refl) as (_ & _ & Hseven).
  split.
  - destruct (Hfive "Venue" eq_refl eq_refl) as (_ & _ & Hrank); [auto|].
    apply (Hrank region2); [reflexivity | reflexivity | discriminate].
  - destruct (Hseven "Venue" eq_refl eq_refl) as (_ & Hperm & _); [auto|].
    apply (Hperm region2); reflexivity.
Defined.

Section MutationFurther.
Context `{M : OrgUnitModel} `{V : ValidationHelper} `{J : Builtins}.

(** The two ways the delete route ends. *)
Lemma delete_route_inv db id tokenUser db' r :
  delete_route db id tokenUser = (db', r) →
  (db' = db ∧ ∃ e, r = Fail e)
  ∨ ∃ k unit p,
      parseInt id = Some k ∧ k ≠ 1
      ∧ fetchUnit db (whereId (Some k)) = Ok unit
      ∧ hasOverUnit db (UnitModel unit)
          ("org_create_" +:+ toLowerCase (u_type unit)) (OfficerId tokenUser)
        = Ok true
      ∧ getChildren db unit = []
      ∧ last (parents unit) = Some p ∧ p ≠ 0
      ∧ org_units db' = org_units (destroyUnit db unit)
      ∧ r = Ok tt.
Proof.
  unfold delete_route, NaN_strictNotEqual. cbv beta iota zeta. intros Hrun.
  destruct (parseInt id) as [k|] eqn:Hparse.
  - destruct (bool_decide _) eqn:Hroot; [inversion Hrun; eauto|].
    apply bool_decide_eq_false in Hroot.
    destruct (fetchUnit db (whereId (Some k))) as [unit|e] eqn:Hfetch;
      cbn [catch_throw bind] in Hrun; [|inversion Hrun; eauto].
    destruct (fetchUnit_whereId _ _ _ Hfetch) as [Hid _].
    destruct (hasOverUnit _ _ _ _) as [granted|e] eqn:Hperm;
      cbn [bind] in Hrun; [|inversion Hrun; eauto].
    apply hasOverUnit_Ok in Hperm as Hgranted. subst granted.
    destruct (getChildren db unit) as [|c cs] eqn:Hleaf;
      [|inversion Hrun; eauto].
    cbn [length Nat.eqb negb bind] in Hrun.
    unfold transaction, deleteTransaction in Hrun.
    destruct (last (parents unit)) as [p|] eqn:Hlast;
      [|inversion Hrun; eauto].
    unfold truthy_int in Hrun.
    destruct (p =? 0)%Z eqn:Hp; [inversion Hrun; eauto|].
    apply Z.eqb_neq in Hp. cbn [negb] in Hrun.
    destruct (patchUsers (destroyOffices db (u_id unit)) (u_id unit) p)
      as [t'|e] eqn:Hpatch;
      cbn [bind finalCatch catch_throw] in Hrun; [|inversion Hrun; eauto].
    apply patchUsers_frame in Hpatch as [Hunits _].
    inversion Hrun; subst db' r. right. exists k, unit, p.
    repeat split; try done; [congruence|].
    unfold destroyUnit. simpl. by rewrite Hunits.
  - destruct (bool_decide _); [inversion Hrun; eauto|].
    change (@None Z) with NaN in Hrun. rewrite fetchUnit_NaN in Hrun.
    inversion Hrun; eauto.
Qed.

(** X7.  The delete route is all or nothing, and guarded: a delete that
    fails leaves the three tables as they were; a delete that succeeds was
    addressed by the id of a unit other than the root, the officer had
    [org_create_<type>] over that unit, the unit had no children and had a
    parent, and every other unit's row is as before. *)
Theorem delete_guarded_atomic db id tokenUser :
  (∀ db' e, delete_route db id tokenUser = (db', Fail e) → db' = db)
  ∧ (∀ db',
       delete_route db id tokenUser = (db', Ok tt) →
       ∃ k unit,
         parseInt id = Some k ∧ k ≠ 1
         ∧ fetchUnit db (whereId (Some k)) = Ok unit
         ∧ hasOverUnit db (UnitModel unit)
             ("org_create_" +:+ toLowerCase (u_type unit))
             (OfficerId tokenUser) = Ok true
         ∧ getChildren db unit = []
         ∧ is_Some (last (parents unit))
         ∧ ∀ u, u ∈ org_units db' ↔ u ∈ org_units db ∧ u_id u ≠ k).
Proof.
  split.
  - intros db' e Hrun.
    apply delete_route_inv in Hrun
      as [[Hdb _] | (k & unit & p & _ & _ & _ & _ & _ & _ & _ & _ & Hr)];
      [done | discriminate].
  - intros db' Hrun.
    apply delete_route_inv in Hrun
      as [[_ [e He]] | (k & unit & p & Hparse & Hroot & Hfetch & Hperm
                        & Hleaf & Hlast & Hp & Hdb & _)]; [discriminate|].
    exists k, unit.
    split; [done|]. split; [done|]. split; [done|]. split; [done|].
    split; [done|]. split; [by rewrite Hlast|].
    intros u. rewrite Hdb.
    destruct (fetchUnit_whereId _ _ _ Hfetch) as [Hid _].
    rewrite destroyUnit_spec. by rewrite Hid.
Qed.

(** X8.  The root unit survives every delete request: whatever the
    argument and the officer, a row with the id 1 that is in the table
    before the request is in the table after it. *)
Theorem delete_keeps_root db id tokenUser root :
  root ∈ org_units db → u_id root = 1 →
  root ∈ org_units (fst (delete_route db id tokenUser)).
Proof.
  intros Hin Hone.
  destruct (delete_route db id tokenUser) as [db' r] eqn:Hrun. cbn [fst].
  apply delete_route_inv in Hrun
    as [[-> _] | (k & unit & p & _ & Hroot & Hfetch & _ & _ & _ & _ & Hdb
                  & _)];
    [done|].
  destruct (fetchUnit_whereId _ _ _ Hfetch) as [Hid _].
  rewrite Hdb. apply destroyUnit_spec. split; [done | congruence].
Qed.

(** X9.  A delete addressed by anything that does not parse to an integer,
    a unit code for instance, is answered "Org unit not found" and writes
    nothing: the lookup is by the id [NaN], which no row has. *)
Theorem delete_by_code_not_found db id tokenUser :
  parseInt id = NaN →
  delete_route db id tokenUser
    = (db, Fail (UserError "Org unit not found" 404 (Some NotFoundError))).
Proof.
  intros Hnan. unfold delete_route, NaN_strictNotEqual. rewrite Hnan.
  cbv beta iota zeta.
  destruct (bool_decide _) eqn:Hone;
    [apply bool_decide_eq_true in Hone; discriminate|].
  by rewrite fetchUnit_NaN.
Qed.

(** The two ways the update route ends. *)
Lemma update_route_inv db id body tokenUser db' r :
  update_route db id body tokenUser = (db', r) →
  (db' = db ∧ ∃ e, r = Fail e)
  ∨ ∃ k unit,
      parseInt id = Some k
      ∧ fetchUnit db (whereId (Some k)) = Ok unit
      ∧ hasOverUnit db (UnitModel unit) "org_update" (OfficerId tokenUser)
        = Ok true
      ∧ validate_async body updateConstraints = Ok body
      ∧ db' = saveUnit db (set_attributes unit body)
      ∧ r = Ok (set_attributes unit body).
Proof.
  unfold update_route. intros Hrun.
  destruct (isEmpty body); [inversion Hrun; eauto|].
  rewrite update_query_by_id in Hrun.
  destruct (parseInt id) as [k|] eqn:Hparse.
  - destruct (fetchUnit db (whereId (Some k))) as [unit|e] eqn:Hfetch;
      cbn [catch_throw bind] in Hrun; [|inversion Hrun; eauto].
    destruct (hasOverUnit _ _ _ _) as [granted|e] eqn:Hperm;
      cbn [bind] in Hrun; [|inversion Hrun; eauto].
    apply hasOverUnit_Ok in Hperm as Hgranted. subst granted.
    destruct (validate_async body updateConstraints) as [attributes|e]
      eqn:Hval; cbn [catch_throw bind] in Hrun; [|inversion Hrun; eauto].
    apply validate_async_Ok in Hval as Hsame. subst attributes.
    inversion Hrun; subst db' r. right. exists k, unit. by repeat split.
  - change (@None Z) with NaN in Hrun. rewrite fetchUnit_NaN in Hrun.
    inversion Hrun; eauto.
Qed.

Lemma saveUnit_other t unit u :
  u ∈ org_units t → u_id u ≠ u_id unit → u ∈ org_units (saveUnit t unit).
Proof.
  intros Hin Hne. unfold saveUnit. cbn [withUnits org_units].
  rewrite list_elem_of_In, in_map_iff. exists u.
  rewrite <- list_elem_of_In. split; [|done].
  by rewrite (proj2 (Z.eqb_neq _ _) Hne).
Qed.

(** X10.  An update that succeeds was addressed by the id of a unit over
    which the officer has [org_update]; it leaves the offices, the users,
    the number of units and every unit with another id as they were.  An
    update that fails writes nothing. *)
Theorem update_authorized_frame db id body tokenUser :
  (∀ db' e, update_route db id body tokenUser = (db', Fail e) → db' = db)
  ∧ (∀ db' unit',
       update_route db id body tokenUser = (db', Ok unit') →
       ∃ k unit,
         parseInt id = Some k
         ∧ fetchUnit db (whereId (Some k)) = Ok unit
         ∧ hasOverUnit db (UnitModel unit) "org_update" (OfficerId tokenUser)
           = Ok true
         ∧ u_id unit' = k
         ∧ offices db' = offices db ∧ users db' = users db
         ∧ length (org_units db') = length (org_units db)
         ∧ ∀ u, u ∈ org_units db → u_id u ≠ k → u ∈ org_units db').
Proof.
  split.
  - intros db' e Hrun.
    apply update_route_inv in Hrun
      as [[Hdb _] | (k & unit & _ & _ & _ & _ & _ & Hr)];
      [done | discriminate].
  - intros db' unit' Hrun.
    apply update_route_inv in Hrun
      as [[_ [e He]] | (k & unit & Hparse & Hfetch & Hperm & _ & Hdb & Hr)];
      [discriminate|].
    inversion Hr; subst unit' db'.
    destruct (fetchUnit_whereId _ _ _ Hfetch) as [Hid _].
    exists k, unit.
    split; [done|]. split; [done|]. split; [done|]. split; [done|].
    split; [done|]. split; [done|]. split.
    + unfold saveUnit. cbn [withUnits org_units]. by rewrite length_map.
    + intros u Hin Hne. apply saveUnit_other; [done|]. simpl. congruence.
Qed.

End MutationFurther.

(** Unit 1 is still there after the failed delete of itself and after the
    delete of Domain 3. *)
Lemma delete_keeps_root_witness :
  nation1 ∈ org_units (fst (delete_route (M := pathModel)
        (J := asciiBuiltins) sample_db "1" 5))
  ∧ nation1 ∈ org_units (fst (delete_route (M := pathModel)
        (J := asciiBuiltins) sample_db "3" 5)).
Proof.
  split; apply (delete_keeps_root (M := pathModel) (J := asciiBuiltins));
    [apply elem_of_cons; by left | reflexivity
    | apply elem_of_cons; by left | reflexivity].
Defined.

Lemma delete_by_code_not_found_witness :
  fetchUnit sample_db (whereCode "NY") = Ok domain3
  ∧ delete_route (M := pathModel) (J := asciiBuiltins) sample_db "NY" 5
    = (sample_db,
       Fail (UserError "Org unit not found" 404 (Some NotFoundError))).
Proof.
  split; [reflexivity|].
  apply (delete_by_code_not_found (M := pathModel)
        (J := asciiBuiltins)). reflexivity.
Defined.

(** ** The search route, further *)

Section SearchFurther.
Context `{T : TokenModel} `{J : Builtins} `{Q : OrgUnitQuery}.

(** The names of the unit types in lower case. *)
Lemma lowered_types :
  List.map toLowerCase getTypes = ["nation"; "region"; "domain"; "venue"].
Proof. cbn [List.map getTypes]. by rewrite !toLowerCase_ascii_text. Qed.

(** The query a search runs, with what the checks before it have
    established about its parameters. *)
Lemma search_route_Searched tokens db req (params : gmap string QueryValue)
    conds answer :
  search_route tokens db req params = Searched conds answer →
  (∃ req' calls, validate None tokens req = Next req' calls)
  ∧ stringParams params
  ∧ answer = searchCatch (fetchAll db conds)
  ∧ ∃ na co ty ve : option string,
      conds = (whereIf na (fun v => WhereLike "name" ("%" +:+ v +:+ "%")) ++
               whereIf co (fun v => WhereLike "code" ("%" +:+ v +:+ "%")) ++
               whereIf ty (WhereEq "type") ++
               whereIf ve (WhereEq "venueType"))%list
      ∧ (∀ t, ty = Some t → truthy_string t = true →
              t ∈ List.map toLowerCase getTypes)
      ∧ (truthy ve = true → ty = Some "venue")
      ∧ (truthy co = true → truthy ve = false ∧ ty ≠ Some "venue").
Proof.
  unfold search_route. intros Hrun.
  destruct (validate None tokens req) as [req' calls|msg status];
    [|discriminate].
  split; [eauto|].
  destruct (bool_decide (params = ∅)); [discriminate|].
  unfold mapValues_toLowerCase in Hrun.
  destruct (bool_decide (map_Forall _ params)) eqn:Hall; [|discriminate].
  apply bool_decide_eq_true in Hall. split; [exact Hall|].
  set (P := omap _ params) in *.
  destruct (truthy (P !! "type") && _) eqn:Htype; [discriminate|].
  assert (Hknown : ∀ t, P !! "type" = Some t → truthy_string t = true →
                        t ∈ List.map toLowerCase getTypes).
  { intros t Ht Htruthy. rewrite Ht in Htype. cbn [truthy] in Htype.
    rewrite Htruthy, indexOf_Some in Htype. cbn [andb] in Htype.
    apply Z.eqb_neq in Htype. by apply indexOf_found in Htype. }
  destruct (truthy (P !! "venue") && bool_decide (P !! "type" = None))
    eqn:Hset.
  - apply andb_prop in Hset as [Hvenue Hnone].
    assert (Hother : ∀ k, k ≠ "type" →
                          <["type" := "venue"]> P !! k = P !! k).
    { intros k Hk. by apply lookup_insert_ne. }
    rewrite (Hother "name"), (Hother "code"), (Hother "venue") in Hrun
      by done.
    rewrite lookup_insert_eq in Hrun. rewrite Hvenue in Hrun.
    cbn [orb] in Hrun. rewrite andb_true_r in Hrun.
    destruct (truthy (P !! "code")) eqn:Hcode; [discriminate|].
    inversion Hrun; subst conds. split; [reflexivity|].
    exists (P !! "name"), (P !! "code"), (Some "venue"), (P !! "venue").
    split; [reflexivity|]. split; [|split].
    + intros t [= <-] _. rewrite lowered_types.
      do 3 (apply elem_of_cons; right). apply elem_of_cons. by left.
    + done.
    + by rewrite Hcode.
  - destruct (truthy (P !! "venue") && negb _) eqn:Hother; [discriminate|].
    destruct (truthy (P !! "code") && _) eqn:Hcode; [discriminate|].
    inversion Hrun; subst conds. split; [reflexivity|].
    exists (P !! "name"), (P !! "code"), (P !! "type"), (P !! "venue").
    split; [reflexivity|]. split; [done|]. split.
    + intros Hvenue. rewrite Hvenue in Hother. cbn [andb] in Hother.
      apply negb_false_iff in Hother. by apply bool_decide_eq_true in Hother.
    + intros Hco. rewrite Hco in Hcode. cbn [andb] in Hcode.
      apply orb_false_elim in Hcode as [Hvenue Hvtype].
      split; [done|]. by apply bool_decide_eq_false in Hvtype.
Qed.

(** X11.  A search that is run is consistent: its type condition, if any,
    names one of the four unit types in lower case; a venue-type condition
    comes with the condition type = venue; and a code condition never comes
    with the condition type = venue nor with a venue-type condition. *)
Theorem search_consistent tokens db req (params : gmap string QueryValue)
    conds answer :
  search_route tokens db req params = Searched conds answer →
  (∀ t, WhereEq "type" t ∈ conds → t ∈ List.map toLowerCase getTypes)
  ∧ (∀ v, WhereEq "venueType" v ∈ conds → WhereEq "type" "venue" ∈ conds)
  ∧ (∀ p, WhereLike "code" p ∈ conds →
          (WhereEq "type" "venue" ∉ conds)
          ∧ ∀ v, WhereEq "venueType" v ∉ conds).
Proof.
  intros Hrun.
  apply search_route_Searched in Hrun
    as (_ & _ & _ & na & co & ty & ve & -> & Hknown & Hvenue & Hcode).
  split; [|split].
  - intros t Hin. rewrite !elem_of_app, !whereIf_elem in Hin.
    destruct Hin as [(v & _ & _ & [=]) | [(v & _ & _ & [=])
                    | [(v & Hty & Hv & [= <-]) | (v & _ & _ & [=])]]].
    by apply Hknown.
  - intros v Hin. rewrite !elem_of_app, !whereIf_elem in Hin.
    destruct Hin as [(v' & _ & _ & [=]) | [(v' & _ & _ & [=])
                    | [(v' & _ & _ & [=]) | (v' & Hve & Hv & [= <-])]]].
    rewrite !elem_of_app, !whereIf_elem. right. right. left.
    exists "venue". split; [|done]. apply Hvenue. rewrite Hve. exact Hv.
  - intros p Hin. rewrite !elem_of_app, !whereIf_elem in Hin.
    destruct Hin as [(v & _ & _ & [=]) | [(v & Hco & Hv & _)
                    | [(v & _ & _ & [=]) | (v & _ & _ & [=])]]].
    destruct Hcode as [Hnovenue Hnotype]; [rewrite Hco; exact Hv|].
    split.
    + rewrite !elem_of_app, !whereIf_elem.
      intros [(v' & _ & _ & [=]) | [(v' & _ & _ & [=])
             | [(v' & Hty & _ & [= <-]) | (v' & _ & _ & [=])]]].
      by apply Hnotype.
    + intros v'. rewrite !elem_of_app, !whereIf_elem.
      intros [(w & _ & _ & [=]) | [(w & _ & _ & [=])
             | [(w & _ & _ & [=]) | (w & Hve & Hw & _)]]].
      rewrite Hve in Hnovenue. cbn [truthy] in Hnovenue. congruence.
Qed.

(** X12.  What the search route answers when it does not answer with
    units.  A refusal of the token check is a 401, for a token that is
    missing or that is not the token of a row that has not expired, and it
    comes before any look at the parameters.  An error of the handler is
    one of its 400s or the [TypeError] of a parameter that is not a string,
    and it comes before any query.  And the failure of a query that was run
    is answered as a 500 "Search failed" that wraps it, unless it is a
    [UserError] already. *)
Theorem search_rejections_and_token tokens db req
    (params : gmap string QueryValue) :
  (∀ msg status,
      search_route tokens db req params = TokenRefused msg status →
      status = 401
      ∧ validate None tokens req = NextError msg status
      ∧ ((msg = "Token not provided" ∧ req_query_token req = None)
         ∨ (msg = "Invalid token"
            ∧ ∃ value, req_query_token req = Some value
                       ∧ fetchToken tokens value = None)))
  ∧ (∀ e,
       search_route tokens db req params = Rejected e →
       (∃ req' calls, validate None tokens req = Next req' calls)
       ∧ ((e = TypeError "v.toLowerCase is not a function"
           ∧ ¬ stringParams params)
          ∨ ∃ msg, e = UserError msg 400 None))
  ∧ (∀ conds e,
       search_route tokens db req params = Searched conds (Fail e) →
       ∃ cause,
         fetchAll db conds = Fail cause
         ∧ e = (if instanceof_UserError cause then cause
                else UserError "Search failed" 500 (Some cause))).
Proof.
  split; [|split].
  - intros msg status Hrun. unfold search_route in Hrun.
    destruct (validate None tokens req) as [req' calls|msg' status']
      eqn:Hval.
    + destruct (bool_decide _); [discriminate|].
      destruct (mapValues_toLowerCase params); [|discriminate].
      destruct (truthy _ && _); [discriminate|].
      destruct (truthy _ && _).
      * destruct (truthy _ && _); discriminate.
      * destruct (truthy _ && _); [discriminate|].
        destruct (truthy _ && _); discriminate.
    + injection Hrun as -> ->.
      unfold validate, query in Hval. cbn [default] in Hval.
      destruct (req_query_token req) as [value|] eqn:Htoken.
      * destruct (fetchToken tokens value) eqn:Hfetch; [discriminate|].
        injection Hval as <- <-. split; [done|]. split; [done|].
        right. split; [done|]. eauto.
      * injection Hval as <- <-. split; [done|]. split; [done|].
        by left.
  - intros e Hrun. unfold search_route in Hrun.
    destruct (validate None tokens req) as [req' calls|msg' status'];
      [|discriminate].
    split; [eauto|].
    destruct (bool_decide (params = ∅)); [inversion Hrun; eauto|].
    unfold mapValues_toLowerCase in Hrun.
    destruct (bool_decide (map_Forall _ params)) eqn:Hall.
    + right.
      destruct (truthy _ && _); [inversion Hrun; eauto|].
      destruct (truthy _ && _).
      * destruct (truthy _ && _); inversion Hrun; eauto.
      * destruct (truthy _ && _); [inversion Hrun; eauto|].
        destruct (truthy _ && _); inversion Hrun; eauto.
    + left. apply bool_decide_eq_false in Hall. by inversion Hrun.
  - intros conds e Hrun.
    apply search_route_Searched in Hrun as (_ & _ & Hanswer & _).
    unfold searchCatch, catch_throw in Hanswer.
    destruct (fetchAll db conds) as [units|cause]; [discriminate|].
    exists cause. split; [reflexivity|]. congruence.
Qed.

End SearchFurther.

Lemma search_consistent_witness :
  ∃ conds,
    search_route (T := sampleTokens) (J := asciiBuiltins) (Q := exactQuery)
      token_table sample_db req_abc query_venue
    = Searched conds (Ok [])
    ∧ WhereEq "type" "venue" ∈ conds
    ∧ ∀ p, WhereLike "code" p ∉ conds.
Proof.
  destruct (search_consistent (T := sampleTokens) (J := asciiBuiltins)
              (Q := exactQuery) token_table sample_db req_abc query_venue
              [WhereEq "type" "venue"; WhereEq "venueType" "troupe"]
              (Ok []) eq_refl) as (_ & Hvenue & Hcode).
  eexists. split; [reflexivity|]. split.
  - apply (Hvenue "troupe"). apply elem_of_cons. right. apply elem_of_cons.
    by left.
  - intros p Hin. destruct (Hcode p Hin) as [Hno _]. apply Hno.
    apply elem_of_cons. by left.
Defined.

(** * The chain of a unit *)

(** ** The scan of [sortChain] *)

Lemma attach_nested units i u :
  cellsNested units (S i) → (u < i)%nat →
  ∃ p cs c,
    units !! u = Some (Some (Nested p cs))
    ∧ units !! i = Some (Some c)
    ∧ attach units i u
      = Some (<[i := None]> (<[u := Some (Nested p (cs ++ [c])%list)]> units)).
Proof.
  intros Hcells Hu.
  destruct (Hcells u) as (p & cs & Hpu); [lia|].
  destruct (Hcells i) as (q & ds & Hqi); [lia|].
  exists p, cs, (Nested q ds). unfold attach. by rewrite Hpu, Hqi.
Qed.

Lemma attach_cellsNested units i u units' :
  cellsNested units (S i) → (u < i)%nat →
  attach units i u = Some units' →
  cellsNested units' i.
Proof.
  intros Hcells Hu Hstep.
  destruct (attach_nested units i u Hcells Hu) as (p & cs & c & Hpu & _ & Heq).
  rewrite Heq in Hstep. inversion Hstep; subst units'. intros k Hk.
  rewrite list_lookup_insert_ne by lia.
  destruct (decide (k = u)) as [-> | Hne].
  - rewrite list_lookup_insert_eq; [eauto|].
    apply lookup_lt_Some in Hpu. lia.
  - rewrite list_lookup_insert_ne by lia. apply Hcells. lia.
Qed.

(** One pass of the inner loop leaves the array as it is, or attaches the
    cell [i] to a cell before it of lower rank. *)
Lemma innerLoop_step units i n :
  (n ≤ i)%nat → cellsNested units (S i) →
  innerLoop units i n = Some units
  ∨ ∃ u units',
      (u < n)%nat ∧ (depth units u < depth units i)%Z
      ∧ attach units i u = Some units'
      ∧ innerLoop units i n = Some units'.
Proof.
  intros Hn Hcells. induction n as [|u IH]; [by left|].
  cbn [innerLoop].
  destruct (depth units i >? depth units u)%Z eqn:Hgt.
  - right. apply Z.gtb_lt in Hgt.
    destruct (attach_nested units i u Hcells) as (p & cs & c & _ & _ & Heq);
      [lia|].
    eexists u, _. split; [lia|]. split; [done|]. by split.
  - destruct IH as [Heq | (u' & units' & Hu' & Hlt & Hatt & Heq)]; [lia|..].
    + by left.
    + right. exists u', units'. split; [lia|]. by repeat split.
Qed.

(** The loops never raise, and keep whatever each attachment keeps. *)
Lemma outerLoop_invariant (Inv : list (option Json) → Prop) :
  (∀ units i u units',
      (u < i)%nat → cellsNested units (S i) →
      (depth units u < depth units i)%Z →
      attach units i u = Some units' →
      Inv units → Inv units') →
  ∀ n units,
    cellsNested units (S n) → Inv units →
    ∃ units', outerLoop units n = Some units' ∧ Inv units'.
Proof.
  intros Hkeep. induction n as [|n IH]; intros units Hcells Hinv.
  - exists units. by split.
  - cbn [outerLoop].
    destruct (innerLoop_step units (S n) (S n)) as
      [Heq | (u & units' & Hu & Hlt & Hatt & Heq)]; [lia | done | ..];
      rewrite Heq.
    + apply IH; [|done]. intros k Hk. apply Hcells. lia.
    + apply IH.
      * by eapply attach_cellsNested.
      * by eapply Hkeep.
Qed.

(** ** What the array holds *)

Lemma occurrences_app x l1 l2 :
  occurrences x (l1 ++ l2)%list
  = (occurrences x l1 + occurrences x l2)%nat.
Proof. apply count_occ_app. Qed.

Lemma cellUnits_insert x units k old new :
  units !! k = Some old →
  (occurrences x (cellUnits (<[k := new]> units))
   + occurrences x (from_option flatten [] old)
   = occurrences x (cellUnits units)
     + occurrences x (from_option flatten [] new))%nat.
Proof.
  intros Hk.
  rewrite insert_take_drop by (by eapply lookup_lt_Some).
  rewrite <- (take_drop_middle units k old Hk) at 3.
  unfold cellUnits.
  rewrite !flat_map_app. cbn [flat_map]. rewrite !occurrences_app. lia.
Qed.

Lemma flatten_push x p cs c :
  occurrences x (flatten (Nested p (cs ++ [c])%list))
  = (occurrences x (flatten (Nested p cs)) + occurrences x (flatten c))%nat.
Proof.
  cbn [flatten]. rewrite flat_map_app. cbn [flat_map]. rewrite app_nil_r.
  change (p :: flat_map flatten cs ++ flatten c)%list
    with ((p :: flat_map flatten cs) ++ flatten c)%list.
  apply occurrences_app.
Qed.

(** An attachment moves a tree below another and loses no unit. *)
Lemma attach_occurrences x units i u units' :
  (u < i)%nat → cellsNested units (S i) →
  attach units i u = Some units' →
  occurrences x (cellUnits units') = occurrences x (cellUnits units).
Proof.
  intros Hu Hcells Hstep.
  destruct (attach_nested units i u Hcells Hu)
    as (p & cs & c & Hpu & Hci & Heq).
  rewrite Heq in Hstep. inversion Hstep; subst units'.
  pose proof (cellUnits_insert x units u _
                (Some (Nested p (cs ++ [c])%list)) Hpu) as Hfirst.
  assert (Hci' : <[u := Some (Nested p (cs ++ [c])%list)]> units !! i
                 = Some (Some c)).
  { by rewrite list_lookup_insert_ne by lia. }
  pose proof (cellUnits_insert x _ i _ None Hci') as Hsecond.
  cbn [from_option] in Hfirst, Hsecond.
  rewrite flatten_push in Hfirst.
  change (occurrences x []) with 0%nat in Hsecond. lia.
Qed.

Lemma cellUnits_compact units :
  flattenForest (compact units) = cellUnits units.
Proof.
  unfold flattenForest, compact, cellUnits.
  induction units as [|[j|] units IH]; cbn; [done | by rewrite IH | done].
Qed.

Lemma cellUnits_init (units : list Json) :
  cellUnits (List.map (fun j => Some (setChildren j)) units)
  = List.map unitOf units.
Proof.
  unfold cellUnits. induction units as [|j units IH]; [done|].
  cbn. by rewrite IH.
Qed.

Lemma cellsNested_init (units : list Json) :
  cellsNested (List.map (fun j => Some (setChildren j)) units) (length units).
Proof.
  intros k Hk.
  destruct (lookup_lt_is_Some_2 units k Hk) as [j Hj].
  exists (unitOf j), [].
  change (List.map (fun j => Some (setChildren j)) units)
    with ((fun j => Some (setChildren j)) <$> units).
  by rewrite list_lookup_fmap, Hj.
Qed.

(** ** Ranks *)

Lemma attach_ranked units i u units' :
  (u < i)%nat → cellsNested units (S i) →
  (depth units u < depth units i)%Z →
  attach units i u = Some units' →
  cellsRanked units → cellsRanked units'.
Proof.
  intros Hu Hcells Hlt Hstep Hranked.
  destruct (attach_nested units i u Hcells Hu)
    as (p & cs & c & Hpu & Hci & Heq).
  rewrite Heq in Hstep. inversion Hstep; subst units'.
  unfold depth in Hlt. rewrite Hpu, Hci in Hlt. cbn [unitOf] in Hlt.
  intros k j Hk.
  destruct (decide (k = i)) as [-> | Hki].
  { rewrite list_lookup_insert_eq in Hk; [discriminate|].
    rewrite length_insert. by eapply lookup_lt_Some. }
  rewrite list_lookup_insert_ne in Hk by done.
  destruct (decide (k = u)) as [-> | Hku].
  - rewrite list_lookup_insert_eq in Hk by (by eapply lookup_lt_Some).
    inversion Hk; subst j. constructor.
    pose proof (Hranked u _ Hpu) as Hp. inversion Hp as [|? ? Hcs]; subst.
    apply Forall_app. split; [done|].
    apply Forall_singleton. split; [done|]. by apply (Hranked i).
  - rewrite list_lookup_insert_ne in Hk by done. by apply (Hranked k).
Qed.

(** ** The head of the array *)

Lemma attach_head u0 units i u units' :
  (u < i)%nat → cellsNested units (S i) →
  attach units i u = Some units' →
  headIs u0 units → headIs u0 units'.
Proof.
  intros Hu Hcells Hstep [cs0 Hhead].
  destruct (attach_nested units i u Hcells Hu)
    as (p & cs & c & Hpu & Hci & Heq).
  rewrite Heq in Hstep. inversion Hstep; subst units'.
  unfold headIs. rewrite list_lookup_insert_ne by lia.
  destruct (decide (u = 0%nat)) as [-> | Hne].
  - rewrite list_lookup_insert_eq by (by eapply lookup_lt_Some).
    rewrite Hhead in Hpu. inversion Hpu; subst. eauto.
  - rewrite list_lookup_insert_ne by done. eauto.
Qed.

(** The scan of a non-empty array, with all that it keeps. *)
Lemma sortChain_scan (j0 : Json) (rest : list Json) :
  ∃ units',
    outerLoop (List.map (fun j => Some (setChildren j)) (j0 :: rest))
      (length rest) = Some units'
    ∧ (∀ x, occurrences x (cellUnits units')
            = occurrences x (List.map unitOf (j0 :: rest)))
    ∧ cellsRanked units'
    ∧ headIs (unitOf j0) units'.
Proof.
  set (init := List.map (fun j => Some (setChildren j)) (j0 :: rest)).
  apply (outerLoop_invariant
           (fun units =>
              (∀ x, occurrences x (cellUnits units)
                    = occurrences x (List.map unitOf (j0 :: rest)))
              ∧ cellsRanked units
              ∧ headIs (unitOf j0) units)).
  - intros units i u units' Hu Hcells Hlt Hstep (Hocc & Hranked & Hhead).
    split; [|split].
    + intros x. rewrite <- Hocc. by eapply attach_occurrences.
    + by eapply attach_ranked.
    + by eapply attach_head.
  - apply (cellsNested_init (j0 :: rest)).
  - split; [|split].
    + intros x. unfold init. by rewrite cellUnits_init.
    + intros k j Hk. unfold init in Hk.
      change (List.map (fun j => Some (setChildren j)) (j0 :: rest))
        with ((fun j => Some (setChildren j)) <$> (j0 :: rest)) in Hk.
      rewrite list_lookup_fmap in Hk.
      destruct ((j0 :: rest) !! k) as [j'|]; [|discriminate].
      inversion Hk; subst j. constructor. constructor.
    + exists []. reflexivity.
Qed.

Lemma compact_head u0 units :
  headIs u0 units → ∃ cs tail, compact units = Nested u0 cs :: tail.
Proof.
  intros [cs Hhead]. destruct units as [|cell units]; [discriminate|].
  cbn in Hhead. inversion Hhead; subst cell.
  exists cs, (compact units). reflexivity.
Qed.

Lemma compact_ranked units : cellsRanked units → Forall Ranked (compact units).
Proof.
  intros Hranked. apply Forall_forall. intros j Hj.
  apply list_elem_of_omap in Hj as (cell & Hcell & ->).
  apply list_elem_of_lookup in Hcell as [k Hk]. by apply (Hranked k).
Qed.

(** What [sortChain] returns, with all that the scan keeps. *)
Lemma sortChain_result (units : list Json) :
  ∃ forest,
    sortChain units = Some forest
    ∧ flattenForest forest ≡ₚ List.map unitOf units
    ∧ Forall Ranked forest
    ∧ ∀ j0 rest, units = j0 :: rest →
                 ∃ cs tail, forest = Nested (unitOf j0) cs :: tail.
Proof.
  destruct units as [|j0 rest].
  - exists []. split; [reflexivity|]. split; [reflexivity|].
    split; [constructor | discriminate].
  - destruct (sortChain_scan j0 rest)
      as (units' & Hrun & Hocc & Hranked & Hhead).
    exists (compact units'). unfold sortChain.
    replace (length (j0 :: rest) - 1)%nat with (length rest)
      by (cbn [length]; lia).
    rewrite Hrun. split; [reflexivity|]. split; [|split].
    + apply (Permutation_count_occ OrgUnit_eq_dec). intros x.
      rewrite cellUnits_compact. apply Hocc.
    + by apply compact_ranked.
    + intros j0' rest' [= <- <-]. by apply compact_head.
Qed.

(** X13.  [sortChain] never raises, whatever the units and their types: the
    scan never reaches a cell it has emptied.  The forest it returns holds
    exactly the units it was given, each as often as it was given, and the
    first unit given stays the first tree's root. *)
Theorem sortChain_conserves (units : list Json) :
  ∃ forest,
    sortChain units = Some forest
    ∧ flattenForest forest ≡ₚ List.map unitOf units
    ∧ ∀ j0 rest, units = j0 :: rest →
                 ∃ cs tail, forest = Nested (unitOf j0) cs :: tail.
Proof.
  destruct (sortChain_result units) as (forest & Hrun & Hperm & _ & Hhead).
  exists forest. by repeat split.
Qed.

(** X14.  In the forest [sortChain] returns, every child has a type of
    higher rank than its parent, at every level. *)
Theorem sortChain_ranked (units forest : list Json) :
  sortChain units = Some forest → Forall Ranked forest.
Proof.
  destruct (sortChain_result units) as (forest' & Hrun & _ & Hranked & _).
  rewrite Hrun. by intros [= <-].
Qed.

(** Domain 3 with its two Venues, then Domain 7: the Venues end below the
    first Domain. *)
Lemma sortChain_ranked_witness :
  ∃ forest,
    sortChain (List.map Plain (skipn 2 chain_units)) = Some forest
    ∧ length forest = 2%nat ∧ Forall Ranked forest.
Proof.
  eexists. split; [reflexivity|]. split; [reflexivity|].
  eapply (sortChain_ranked (List.map Plain (skipn 2 chain_units))).
  reflexivity.
Defined.

(** ** [getChain] and the internal route *)

Section ChainProperties.
Context `{C : ChainModel} `{J : Builtins}.

Lemma omitBounds_none u :
  u_lft (omitBounds u) = None ∧ u_rgt (omitBounds u) = None.
Proof. done. Qed.

(** X15.  When the model resolves with rows, [getChain] resolves: the
    parents are the rows whose [lft] is below the unit's, in the order of the
    rows; the children hold exactly the other rows, ranked; and no unit of
    the parents or of the children carries its [lft] or [rgt]. *)
Theorem getChain_partition db unit rows :
  getChainRows db unit = Ok (Some rows) →
  ∃ resp,
    getChain db (Ok unit) = Ok resp
    ∧ r_unit resp = unit
    ∧ r_parents resp
      = List.map (fun m => Plain (omitBounds m))
          (List.filter (fun r => bound_lt (u_lft r) (u_lft unit)) rows)
    ∧ flattenForest (r_children resp)
      ≡ₚ List.map omitBounds
           (List.filter (fun r => negb (bound_lt (u_lft r) (u_lft unit)))
              rows)
    ∧ Forall Ranked (r_children resp)
    ∧ ∀ u, u ∈ (flattenForest (r_children resp)
                ++ List.map unitOf (r_parents resp))%list →
           u_lft u = None ∧ u_rgt u = None.
Proof.
  intros Hrows. unfold getChain. cbn [bind]. rewrite Hrows. cbn [bind].
  rewrite partition_as_filter. cbn [fst snd].
  set (ps := List.filter (fun r => bound_lt (u_lft r) (u_lft unit)) rows).
  set (cs := List.filter
               (fun r => negb (bound_lt (u_lft r) (u_lft unit))) rows).
  assert (Hflat : flattenForest (List.map (fun m => Plain (omitBounds m)) cs)
                  = List.map omitBounds cs).
  { unfold flattenForest. induction cs as [|c cs' IH]; [done|].
    cbn. by rewrite IH. }
  assert (Hunits : ∀ l, List.map unitOf
                          (List.map (fun m => Plain (omitBounds m)) l)
                        = List.map omitBounds l).
  { intros l. rewrite List.map_map. reflexivity. }
  assert (Hhidden : ∀ (children : list Json) u,
             flattenForest children ≡ₚ List.map omitBounds cs →
             u ∈ (flattenForest children
                  ++ List.map unitOf
                       (List.map (fun m => Plain (omitBounds m)) ps))%list →
             u_lft u = None ∧ u_rgt u = None).
  { intros children u Hperm Hin. rewrite Hunits in Hin.
    apply elem_of_app in Hin as [Hin | Hin].
    - rewrite Hperm in Hin. apply list_elem_of_In, in_map_iff in Hin
        as (r & <- & _). apply omitBounds_none.
    - apply list_elem_of_In, in_map_iff in Hin as (r & <- & _).
      apply omitBounds_none. }
  destruct (1 <? length _)%nat.
  - destruct (sortChain_result (List.map (fun m => Plain (omitBounds m)) cs))
      as (forest & Hsort & Hperm & Hranked & _).
    rewrite Hsort. rewrite Hunits in Hperm.
    exists (mkChainResponse unit forest
              (List.map (fun m => Plain (omitBounds m)) ps)).
    cbn [r_unit r_children r_parents].
    split; [done|]. split; [done|]. split; [done|]. split; [done|].
    split; [done|].
    intros u. by apply Hhidden.
  - eexists. split; [reflexivity|]. cbn [r_unit r_children r_parents].
    split; [done|]. split; [done|]. split; [by rewrite Hflat|].
    split.
    + apply Forall_forall. intros j Hj.
      apply list_elem_of_In, in_map_iff in Hj as (r & <- & _). constructor.
    + intros u. apply Hhidden. by rewrite Hflat.
Qed.

(** X16.  The internal route never answers "Invalid org id": its test
    [NaN === id] holds of no value.  An id that does not parse to an integer
    is looked up as [NaN] and answered 404, and so is every other failure,
    the model's included. *)
Theorem internal_route_failures db id :
  internal_route db id ≠ Fail (PlainError "Invalid org id")
  ∧ (parseInt id = NaN →
     internal_route db id
       = Fail (UserError "Org unit not found" 404 (Some NotFoundError)))
  ∧ (∀ e, internal_route db id = Fail e →
          ∃ cause, e = UserError "Org unit not found" 404 (Some cause)).
Proof.
  unfold internal_route, NaN_strictEqual. cbv beta iota zeta.
  split; [|split].
  - destruct (getChain _ _); discriminate.
  - intros Hnan. by rewrite Hnan, fetchUnit_NaN.
  - intros e. destruct (getChain _ _); [discriminate|].
    intros [= <-]. eauto.
Qed.

End ChainProperties.

(** Domain 3 of the tree: the Nation and the Region above it, its two Venues
    below it, not nested since neither ranks above the other. *)
Lemma getChain_partition_witness :
  ∃ resp,
    internal_route (C := intervalModel)
          (J := asciiBuiltins) tree_db "3" = Ok resp
    ∧ List.map (fun j => u_id (unitOf j)) (r_parents resp) = [1; 2]
    ∧ List.map (fun j => u_id (unitOf j)) (r_children resp) = [5; 6]
    ∧ Forall Ranked (r_children resp).
Proof.
  destruct (getChain_partition (C := intervalModel) tree_db
              (unit_row 3 (Some "NY") "Domain" (Some 2) "1.2.3" 3 8)
              _ eq_refl) as (resp & Hrun & _ & _ & _ & Hranked & _).
  exists resp. split; [exact Hrun|].
  vm_compute in Hrun. inversion Hrun; subst resp.
  split; [reflexivity|]. split; [reflexivity | exact Hranked].
Defined.

(** ** The order of the children *)

Lemma cells_length (l : list Json) :
  length (List.map (fun j => Some (setChildren j)) l) = length l.
Proof. apply length_map. Qed.

Lemma depth_cell (l : list Json) (rest : list (option Json)) head u j :
  l !! u = Some j →
  depth (head :: (List.map (fun j => Some (setChildren j)) l ++ rest)%list)
    (S u)
  = indexOf getTypes (u_type (unitOf j)).
Proof.
  intros Hj. unfold depth.
  change (List.map (fun j => Some (setChildren j)) l)
    with ((fun j => Some (setChildren j)) <$> l).
  change ((head :: ((fun j => Some (setChildren j)) <$> l) ++ rest)%list
          !! S u)
    with ((((fun j => Some (setChildren j)) <$> l) ++ rest)%list !! u).
  pose proof (lookup_lt_Some _ _ _ Hj) as Hlt.
  rewrite lookup_app_l by (by rewrite length_fmap).
  by rewrite list_lookup_fmap, Hj.
Qed.

(** With only units of one rank between the first cell and the cell [i],
    the inner loop walks down to the first cell and attaches there. *)
Lemma innerLoop_same_rank p0 kids (l : list Json) c rest d n :
  Forall (fun j => indexOf getTypes (u_type (unitOf j)) = d) l →
  indexOf getTypes (u_type (unitOf c)) = d →
  (indexOf getTypes (u_type p0) < d)%Z →
  (1 ≤ n ≤ S (length l))%nat →
  innerLoop
    (Some (Nested p0 kids)
     :: (List.map (fun j => Some (setChildren j)) l
         ++ Some (setChildren c) :: rest)%list)
    (S (length l)) n
  = attach
      (Some (Nested p0 kids)
       :: (List.map (fun j => Some (setChildren j)) l
           ++ Some (setChildren c) :: rest)%list)
      (S (length l)) 0.
Proof.
  intros Hl Hc Hp Hn.
  set (units := Some (Nested p0 kids)
                :: (List.map (fun j => Some (setChildren j)) l
                    ++ Some (setChildren c) :: rest)%list).
  assert (Hi : depth units (S (length l)) = d).
  { unfold depth, units.
    change ((?h :: ?t) !! S (length l)) with (t !! length l).
    rewrite <- (cells_length l) at 1. by rewrite list_lookup_middle. }
  induction n as [|[|u] IH]; [lia | |].
  - cbn [innerLoop]. rewrite Hi.
    change (depth units 0) with (indexOf getTypes (u_type p0)).
    by rewrite (proj2 (Z.gtb_lt _ _) Hp).
  - change (innerLoop units (S (length l)) (S (S u)))
      with (if (depth units (S (length l)) >? depth units (S u))%Z
            then attach units (S (length l)) (S u)
            else innerLoop units (S (length l)) (S u)).
    destruct (lookup_lt_is_Some_2 l u) as [j Hj]; [lia|].
    unfold units at 2. rewrite (depth_cell l _ _ u j Hj), Hi.
    rewrite Forall_lookup in Hl. rewrite (Hl u j Hj).
    rewrite Z.gtb_ltb, Z.ltb_irrefl.
    apply IH. lia.
Qed.

Lemma attach_first p0 kids (l : list Json) c rest :
  attach
    (Some (Nested p0 kids)
     :: (List.map (fun j => Some (setChildren j)) l
         ++ Some (setChildren c) :: rest)%list)
    (S (length l)) 0
  = Some (Some (Nested p0 (kids ++ [setChildren c])%list)
          :: (List.map (fun j => Some (setChildren j)) l
              ++ None :: rest)%list).
Proof.
  set (cells := List.map (fun j => Some (setChildren j)) l).
  assert (Hmid : (cells ++ Some (setChildren c) :: rest)%list !! length l
                 = Some (Some (setChildren c))).
  { rewrite <- (cells_length l). by apply list_lookup_middle. }
  assert (Hins : <[length l := None]>
                   (cells ++ Some (setChildren c) :: rest)%list
                 = (cells ++ None :: rest)%list).
  { rewrite <- (cells_length l). fold cells.
    rewrite <- (Nat.add_0_r (length cells)). by rewrite insert_app_r. }
  unfold attach.
  change ((?h :: ?t) !! S (length l)) with (t !! length l).
  change ((?h :: ?t) !! 0%nat) with (Some h).
  rewrite Hmid.
  change (<[S (length l) := None]>
            (<[0%nat := ?x]> (?h :: ?t)))
    with (x :: <[length l := None]> t).
  by rewrite Hins.
Qed.

(** The scan of a first cell followed by units of one higher rank. *)
Lemma outerLoop_same_rank p0 d (l : list Json) :
  Forall (fun j => indexOf getTypes (u_type (unitOf j)) = d) l →
  (indexOf getTypes (u_type p0) < d)%Z →
  ∀ kids m,
    outerLoop
      (Some (Nested p0 kids)
       :: (List.map (fun j => Some (setChildren j)) l
           ++ replicate m None)%list)
      (length l)
    = Some (Some (Nested p0 (kids ++ rev (List.map setChildren l))%list)
            :: replicate (length l + m) None).
Proof.
  intros Hl Hp. induction l as [|c l IH] using rev_ind; intros kids m.
  - cbn. by rewrite app_nil_r.
  - apply Forall_app in Hl as [Hl Hc]. apply Forall_inv in Hc.
    rewrite List.map_app, <- app_assoc. cbn [List.map app].
    rewrite length_app. cbn [length]. rewrite Nat.add_1_r.
    cbn [outerLoop].
    rewrite (innerLoop_same_rank p0 kids l c (replicate m None) d
               (S (length l)) Hl Hc Hp) by lia.
    rewrite attach_first.
    change (None :: replicate m None) with (replicate (S m) (@None Json)).
    rewrite (IH Hl). rewrite List.map_app, rev_app_distr. cbn [List.map rev app].
    rewrite <- app_assoc. cbn [app].
    by rewrite Nat.add_succ_r.
Qed.

Lemma compact_replicate j n : compact (Some j :: replicate n None) = [j].
Proof. unfold compact. induction n as [|n IH]; [done|]. cbn in *. done. Qed.

(** X17.  The children of a unit come out in the reverse of the order they
    came in: given a unit followed by units that all have one and the same
    type, of higher rank than the first, [sortChain] returns the first unit
    alone, with the others as its children, last first. *)
Theorem sortChain_reverses_children (p : Json) (cs : list Json) (d : Z) :
  Forall (fun c => indexOf getTypes (u_type (unitOf c)) = d) cs →
  (indexOf getTypes (u_type (unitOf p)) < d)%Z →
  sortChain (p :: cs)
  = Some [Nested (unitOf p) (rev (List.map setChildren cs))].
Proof.
  intros Hcs Hp. unfold sortChain.
  replace (length (p :: cs) - 1)%nat with (length cs) by (cbn [length]; lia).
  cbn [List.map]. unfold setChildren at 1.
  rewrite <- (app_nil_r (List.map _ cs)).
  change (@nil (option Json)) with (replicate 0 (@None Json)).
  rewrite (outerLoop_same_rank (unitOf p) d cs Hcs Hp [] 0).
  by rewrite compact_replicate.
Qed.

(** Domain 3 followed by its Venues 5 and 6: Venue 6 comes first. *)
Lemma sortChain_reverses_children_witness :
  sortChain [Plain domain3; Plain venue5; Plain venue6]
  = Some [Nested domain3 [Nested venue6 []; Nested venue5 []]].
Proof.
  apply (sortChain_reverses_children (Plain domain3)
           [Plain venue5; Plain venue6] 3).
  - repeat constructor.
  - reflexivity.
Defined.

(** * The token middleware *)

Section TokenProperties.
Context `{T : TokenModel}.

Lemma fetchToken_Some tokens value token :
  fetchToken tokens value = Some token →
  token ∈ tokens ∧ t_token token = value ∧ notExpired token = true.
Proof.
  unfold fetchToken. intros Hfind.
  apply find_some in Hfind as [Hin Htest].
  apply andb_prop in Htest as [Hvalue Hfresh].
  apply bool_decide_eq_true in Hvalue. by rewrite list_elem_of_In.
Qed.

Lemma fetchToken_None tokens value :
  fetchToken tokens value = None →
  ∀ token, token ∈ tokens → t_token token = value →
           notExpired token = false.
Proof.
  unfold fetchToken. intros Hfind token Hin Hvalue.
  apply list_elem_of_In in Hin.
  pose proof (find_none _ _ Hfind token Hin) as Htest. cbv beta in Htest.
  rewrite bool_decide_eq_true_2 in Htest by done. exact Htest.
Qed.

(** X18.  When a token is required (the default), the middleware goes on
    only for a request whose query carries the token of a row of the table
    that has not expired: that row is what [req.token] then holds, it is the
    only token refreshed, and [req.user] is set to its user by [parse] and
    left alone by [validate]. *)
Theorem token_required_sound tokens req required fetch req' calls :
  default true required = true →
  query tokens req required fetch = Next req' calls →
  ∃ value token,
    req_query_token req = Some value
    ∧ token ∈ tokens ∧ t_token token = value ∧ notExpired token = true
    ∧ req_token req' = SlotToken token
    ∧ calls = [Refresh token]
    ∧ req_user req'
      = (if default false fetch then Some (related_user token)
         else req_user req).
Proof.
  intros Hreq. unfold query. rewrite Hreq.
  destruct (req_query_token req) as [value|]; [|discriminate].
  destruct (fetchToken tokens value) as [token|] eqn:Hfetch; [|discriminate].
  intros [= <- <-]. exists value, token.
  destruct (fetchToken_Some _ _ _ Hfetch) as (Hin & Hvalue & Hfresh).
  by repeat split.
Qed.

(** X19.  When no token is required, the middleware never answers with an
    error: without a token in the query the request goes on untouched; with
    a token that is unknown or has expired it goes on with [req.token] set to
    [null], and nothing is refreshed. *)
Theorem token_optional tokens req fetch :
  (∃ req' calls, query tokens req (Some false) fetch = Next req' calls)
  ∧ (req_query_token req = None →
     query tokens req (Some false) fetch = Next req [])
  ∧ (∀ value,
       req_query_token req = Some value →
       (∀ token, token ∈ tokens → t_token token = value →
                 notExpired token = false) →
       ∃ req', query tokens req (Some false) fetch = Next req' []
               ∧ req_token req' = SlotNull
               ∧ req_user req' = req_user req).
Proof.
  unfold query. cbn [default from_option id].
  split; [|split].
  - destruct (req_query_token req) as [value|]; [|eauto].
    destruct (fetchToken tokens value); eauto.
  - by intros ->.
  - intros value -> Hnone.
    destruct (fetchToken tokens value) as [token|] eqn:Hfetch; [|eauto].
    destruct (fetchToken_Some _ _ _ Hfetch) as (Hin & Hvalue & Hfresh).
    rewrite (Hnone token Hin Hvalue) in Hfresh. discriminate.
Qed.

(** X20.  A token in the cookies takes precedence: after [normalize], the
    token that [validate] checks is the cookie's, whatever the query string
    carried.  The request is refused when the cookie's token is unknown or
    has expired, even if the query carried a good one, and goes on with the
    cookie's token otherwise: the calls then made on the model are the
    removal of the expired tokens and the refresh of that token. *)
Theorem normalize_cookie_first tokens req cookie :
  req_cookie_token req = Some cookie →
  (fetchToken tokens cookie = None →
   andThen (normalize req) (validate None tokens)
     = NextError "Invalid token" 401)
  ∧ (∀ token,
       fetchToken tokens cookie = Some token →
       ∃ req',
         andThen (normalize req) (validate None tokens)
           = Next req' [RemoveExpired; Refresh token]
         ∧ req_token req' = SlotToken token
         ∧ req_query_token req' = Some cookie).
Proof.
  intros Hcookie. unfold normalize, andThen, validate, query.
  rewrite Hcookie. cbn [default from_option id req_query_token].
  split.
  - by intros ->.
  - intros token ->. eexists. split; [reflexivity|]. by split.
Qed.

End TokenProperties.

(** The token [abc] of user 5 is in the table and has not expired; its
    namesake [old-abc] has. *)
Lemma token_required_sound_witness :
  ∃ token,
    token ∈ token_table ∧ t_token token = "abc"
    ∧ notExpired (TokenModel := sampleTokens) token = true
    ∧ validate (T := sampleTokens) None token_table
        (mkRequest (Some "abc") None SlotUnset None)
      = Next (mkRequest (Some "abc") None (SlotToken token) None)
          [Refresh token].
Proof.
  destruct (token_required_sound (T := sampleTokens) token_table
              (mkRequest (Some "abc") None SlotUnset None) None None
              (mkRequest (Some "abc") None (SlotToken (mkToken "abc" 5)) None)
              [Refresh (mkToken "abc" 5)] eq_refl eq_refl)
    as (value & token & Hvalue & Hin & Htoken & Hfresh & Hslot & _ & _).
  injection Hvalue as <-. injection Hslot as <-.
  exists (mkToken "abc" 5).
  split; [exact Hin|]. split; [exact Htoken|]. split; [exact Hfresh|].
  reflexivity.
Defined.

(** The cookie carries an expired token and the query a good one: the
    request is refused. *)
Lemma normalize_cookie_first_witness :
  andThen (normalize (mkRequest (Some "abc") (Some "old-abc") SlotUnset None))
    (validate (T := sampleTokens) None token_table)
  = NextError "Invalid token" 401.
Proof.
  destruct (normalize_cookie_first (T := sampleTokens) token_table
              (mkRequest (Some "abc") (Some "old-abc") SlotUnset None)
              "old-abc" eq_refl) as [Hrefused _].
  apply Hrefused. reflexivity.
Defined.

(** * The path of the public read route *)

Lemma toUpperCase_ascii_letter c :
  isLetter c = true → isUpper (toUpperCase_ascii c) = true.
Proof.
  destruct c as [[] [] [] [] [] [] [] []]; try discriminate; reflexivity.
Qed.

Lemma toUpperCase_ascii_upper c :
  isUpper c = true →
  toUpperCase_ascii c = c
  ∧ isLetter c = true
  ∧ isLetter (toLowerCase_ascii c) = true
  ∧ toUpperCase_ascii (toLowerCase_ascii c) = c.
Proof.
  destruct c as [[] [] [] [] [] [] [] []]; try discriminate; by repeat split.
Qed.

Lemma upper_is_ascii c :
  isUpper c = true → Nat.ltb (nat_of_ascii c) 128 = true.
Proof.
  destruct c as [[] [] [] [] [] [] [] []]; try discriminate; reflexivity.
Qed.

Lemma digit_cases c :
  isDigitOrHyphen c = true →
  toUpperCase_ascii c = c ∧ toLowerCase_ascii c = c ∧ c ≠ "/"%char.
Proof.
  destruct c as [[] [] [] [] [] [] [] []]; try discriminate; by repeat split.
Qed.

Lemma digit_is_ascii c :
  isDigitOrHyphen c = true → Nat.ltb (nat_of_ascii c) 128 = true.
Proof.
  destruct c as [[] [] [] [] [] [] [] []]; try discriminate; reflexivity.
Qed.

Lemma matchTail_digits s tail :
  matchTail s = Some tail →
  allDigitsOrHyphens tail = true
  ∧ toUpperCase tail = tail
  ∧ (s = tail ∨ s = tail +:+ "/").
Proof.
  revert tail. induction s as [|c s IH]; intros tail; cbn [matchTail].
  - intros [= <-]. by repeat split; [left].
  - destruct (isDigitOrHyphen c) eqn:Hc.
    + destruct (matchTail s) as [t|]; [|discriminate]. intros [= <-].
      destruct (IH t eq_refl) as (Hall & Hup & Hs).
      destruct (digit_cases c Hc) as (Hcu & _ & _).
      cbn [allDigitsOrHyphens toUpperCase]. rewrite Hc, Hall, Hcu, Hup.
      split; [done|]. split; [done|].
      destruct Hs as [-> | ->]; [by left | by right].
    + destruct (bool_decide (c = "/"%char)) eqn:Hslash; [|discriminate].
      destruct (bool_decide (s = EmptyString)) eqn:Hend; [|discriminate].
      apply bool_decide_eq_true in Hslash, Hend. subst c s.
      intros [= <-]. by repeat split; [right].
Qed.

Lemma matchTail_complete tail :
  allDigitsOrHyphens tail = true →
  matchTail tail = Some tail
  ∧ matchTail (tail +:+ "/") = Some tail
  ∧ lowerCaseAscii tail = tail
  ∧ isAsciiText tail = true.
Proof.
  induction tail as [|c tail IH]; [done|].
  cbn [allDigitsOrHyphens]. intros [Hc Hall]%andb_prop.
  destruct (IH Hall) as (Hone & Htwo & Hlow & Hascii).
  destruct (digit_cases c Hc) as (_ & Hcl & _).
  rewrite append_cons. cbn [matchTail lowerCaseAscii isAsciiText].
  by rewrite Hc, Hone, Htwo, Hcl, Hlow, Hascii, (digit_is_ascii c Hc).
Qed.

(** X21.  The public read route fetches units by codes of one shape only:
    the code it looks up is always two upper-case letters followed by
    digits and hyphens, and every code of that shape is looked up from the
    path that names it, with or without a last slash and in either case of
    the letters. *)
Theorem routeCode_shape `{J : Builtins} :
  (∀ path code, routeCode path = Some code → isRouteCode code = true)
  ∧ (∀ code,
       isRouteCode code = true →
       routeCode ("/" +:+ code) = Some code
       ∧ routeCode ("/" +:+ code +:+ "/") = Some code
       ∧ routeCode ("/" +:+ toLowerCase code) = Some code).
Proof.
  split.
  - intros path code. unfold routeCode, matchCode.
    destruct path as [|s0 [|a [|b rest]]]; try discriminate.
    + destruct s0 as [[] [] [] [] [] [] [] []]; discriminate.
    + destruct s0 as [[] [] [] [] [] [] [] []]; discriminate.
    + destruct (bool_decide (s0 = "/"%char)) eqn:Hs0.
      * apply bool_decide_eq_true in Hs0. subst s0.
        destruct (isLetter a && isLetter b) eqn:Hab; [|discriminate].
        apply andb_prop in Hab as [Ha Hb].
        destruct (matchTail rest) as [tail|] eqn:Htail; [|discriminate].
        intros [= <-].
        destruct (matchTail_digits _ _ Htail) as (Hall & Hup & _).
        cbn [toUpperCase isRouteCode]. rewrite Hup, Hall.
        by rewrite (toUpperCase_ascii_letter a Ha),
          (toUpperCase_ascii_letter b Hb).
      * apply bool_decide_eq_false in Hs0.
        destruct s0 as [[] [] [] [] [] [] [] []]; try discriminate.
        by destruct Hs0.
  - intros code Hcode. destruct code as [|a [|b tail]]; try discriminate.
    cbn [isRouteCode] in Hcode.
    apply andb_prop in Hcode as [[Ha Hb]%andb_prop Hall].
    destruct (toUpperCase_ascii_upper a Ha) as (Hau & Hal & Hall' & Haul).
    destruct (toUpperCase_ascii_upper b Hb) as (Hbu & Hbl & Hbll & Hbul).
    destruct (matchTail_complete tail Hall) as (Hone & Htwo & Hlow & Hascii).
    destruct (matchTail_digits _ _ Hone) as (_ & Hup & _).
    rewrite (toLowerCase_ascii_text (String a (String b tail)))
      by (cbn [isAsciiText];
          by rewrite (upper_is_ascii a Ha), (upper_is_ascii b Hb), Hascii).
    unfold routeCode. rewrite !append_cons.
    change (EmptyString +:+ ?s) with s.
    cbn [lowerCaseAscii matchCode]. rewrite Hal, Hbl, Hall', Hbll, Hlow.
    cbn [andb]. rewrite Hone, Htwo. cbn [fmap option_fmap option_map toUpperCase].
    by rewrite Hau, Hbu, Haul, Hbul, Hup.
Qed.

(** * Two more properties of the routes *)

Lemma toLowerCase_ascii_idem c :
  toLowerCase_ascii (toLowerCase_ascii c) = toLowerCase_ascii c.
Proof. destruct c as [[] [] [] [] [] [] [] []]; reflexivity. Qed.

Lemma lowerCaseAscii_idem s : lowerCaseAscii (lowerCaseAscii s) = lowerCaseAscii s.
Proof.
  induction s as [|c s IH]; [done|].
  cbn [lowerCaseAscii]. by rewrite toLowerCase_ascii_idem, IH.
Qed.

Lemma toLowerCase_ascii_below c :
  Nat.ltb (nat_of_ascii c) 128 = true →
  Nat.ltb (nat_of_ascii (toLowerCase_ascii c)) 128 = true.
Proof.
  destruct c as [[] [] [] [] [] [] [] []]; try discriminate; reflexivity.
Qed.

Lemma lowerCaseAscii_text s :
  isAsciiText s = true → isAsciiText (lowerCaseAscii s) = true.
Proof.
  induction s as [|c s IH]; [done|].
  cbn [isAsciiText lowerCaseAscii]. intros [Hc Hs]%andb_prop.
  by rewrite (toLowerCase_ascii_below c Hc), IH.
Qed.

Section SearchCase.
Context `{T : TokenModel} `{J : Builtins} `{Q : OrgUnitQuery}.

(** On ASCII text, lower-casing twice is lower-casing once. *)
Lemma toLowerCase_idem s :
  isAsciiText s = true → toLowerCase (toLowerCase s) = toLowerCase s.
Proof.
  intros Hs. rewrite (toLowerCase_ascii_text s Hs).
  rewrite toLowerCase_ascii_text by by apply lowerCaseAscii_text.
  apply lowerCaseAscii_idem.
Qed.

(** X22.  For parameters that are ASCII texts, the search does not
    distinguish upper and lower case: a request and the same request with
    every parameter in lower case have the same outcome, whether the
    request is refused, rejected or run. *)
Theorem search_case_insensitive tokens db req
    (params : gmap string QueryValue) :
  asciiParams params →
  search_route tokens db req (lowerValue <$> params)
  = search_route tokens db req params.
Proof.
  intros Hascii. unfold search_route.
  destruct (validate None tokens req) as [req' calls|msg status]; [|done].
  assert (Hempty : bool_decide (lowerValue <$> params = ∅)
                   = bool_decide (params = ∅)).
  { apply bool_decide_ext. apply fmap_empty_iff. }
  assert (Hlower : mapValues_toLowerCase (lowerValue <$> params)
                   = mapValues_toLowerCase params).
  { unfold mapValues_toLowerCase.
    assert (Hall : bool_decide
                     (map_Forall (fun _ v => is_Some (stringValue v))
                        (lowerValue <$> params))
                   = bool_decide
                       (map_Forall (fun _ v => is_Some (stringValue v))
                          params)).
    { apply bool_decide_ext. split; intros Hall k v Hk.
      - assert (Hk' : (lowerValue <$> params) !! k = Some (lowerValue v))
          by by rewrite lookup_fmap, Hk.
        specialize (Hall k _ Hk'). by destruct v.
      - apply lookup_fmap_Some in Hk as (v' & <- & Hk).
        specialize (Hall k _ Hk). by destruct v'. }
    rewrite Hall. destruct (bool_decide (map_Forall _ params)); [|done].
    f_equal. apply map_eq. intros k. rewrite !lookup_omap, lookup_fmap.
    destruct (params !! k) as [v|] eqn:Hk; [|done].
    destruct v as [s| |]; [|done..].
    cbn. f_equal. apply toLowerCase_idem. exact (Hascii k _ Hk). }
  by rewrite Hempty, Hlower.
Qed.

End SearchCase.

(** [?venue=TROUPE] and [?venue=troupe] are answered alike. *)
Lemma search_case_insensitive_witness :
  search_route (T := sampleTokens) (J := asciiBuiltins) (Q := exactQuery)
    token_table sample_db req_abc
    (list_to_map [("venue", QString "troupe")])
  = search_route (T := sampleTokens) (J := asciiBuiltins) (Q := exactQuery)
      token_table sample_db req_abc query_venue.
Proof.
  rewrite <- (search_case_insensitive (T := sampleTokens)
                (J := asciiBuiltins) (Q := exactQuery) token_table sample_db
                req_abc query_venue).
  - reflexivity.
  - apply (bool_decide_unpack _). vm_compute. exact I.
Defined.

Section CreatePath.
Context `{M : OrgUnitModel} `{V : ValidationHelper} `{J : Builtins}.

(** X23.  A [parentPath] in the body of a create request is never used:
    whatever path the client sends, the outcome is the same, since the route
    overwrites it with the parent's path before it validates and writes. *)
Theorem create_ignores_body_path db data tokenUser (sent other : string) :
  create_route db (with_parentPath data sent) tokenUser
  = create_route db (with_parentPath data other) tokenUser.
Proof.
  unfold create_route.
  assert (Hempty : ∀ p, isEmpty (with_parentPath data p) = false).
  { intros p. unfold isEmpty. apply bool_decide_eq_false.
    intros Heq. apply (f_equal b_parentPath) in Heq. discriminate. }
  rewrite !Hempty. reflexivity.
Qed.

End CreatePath.

(** * The routes on the sample data, further *)

(** The delete of Domain 3 by the national officer: what it has passed. *)
Lemma delete_guarded_atomic_witness :
  ∃ k unit,
    parseInt (Builtins := asciiBuiltins) "3" = Some k ∧ k ≠ 1
    ∧ fetchUnit sample_db (whereId (Some k)) = Ok unit
    ∧ getChildren (OrgUnitModel := pathModel) sample_db unit = []
    ∧ is_Some (last (parents (OrgUnitModel := pathModel) unit)).
Proof.
  destruct (delete_guarded_atomic (M := pathModel)
        (J := asciiBuiltins) sample_db "3" 5)
    as [_ Hdone].
  destruct (Hdone (fst (delete_route (M := pathModel)
        (J := asciiBuiltins) sample_db "3" 5)))
    as (k & unit & Hparse & Hroot & Hfetch & _ & Hleaf & Hparent & _).
  { vm_compute. reflexivity. }
  exists k, unit. split; [exact Hparse|]. split; [exact Hroot|].
  split; [exact Hfetch|]. split; [exact Hleaf | exact Hparent].
Defined.

(** The update of Domain 3 by the national officer leaves the offices, the
    users and the number of units as they were. *)
Lemma update_authorized_frame_witness :
  ∃ db' unit',
    update_route (M := pathModel) (V := prefixHelper)
          (J := asciiBuiltins) sample_db "3"
      body_rename 5 = (db', Ok unit')
    ∧ u_id unit' = 3
    ∧ offices db' = offices sample_db ∧ users db' = users sample_db
    ∧ length (org_units db') = 3%nat.
Proof.
  destruct (update_authorized_frame (M := pathModel) (V := prefixHelper)
        (J := asciiBuiltins)
              sample_db "3" body_rename 5) as [_ Hdone].
  destruct (update_route (M := pathModel) (V := prefixHelper)
        (J := asciiBuiltins) sample_db "3"
              body_rename 5) as [db' [unit'|e]] eqn:Hrun;
    [|vm_compute in Hrun; discriminate Hrun].
  destruct (Hdone db' unit' eq_refl)
    as (k & unit & Hparse & _ & _ & Hid & Hoffices & Husers & Hlen & _).
  injection Hparse as <-.
  exists db', unit'. split; [reflexivity|]. split; [exact Hid|].
  split; [exact Hoffices|]. split; [exact Husers | exact Hlen].
Defined.
